(** * NEXA port scanner: the probe engine and the connection prober

    A shallow embedding of [src/nexa.py]: the connection prober
    [probe_port_once], the bounded-concurrency engine [run_scan] and the
    row filter of [print_table], with the properties of the specification
    stated and proved over them.

    Python values are modelled as follows.
    - [str] is a sequence of Unicode code points ([list N]);
    - [bytes] is [list byte];
    - [int] is [Z]; a duration ([float] seconds) is a rational [Q];
    - [Dict[int, Tuple[str, str]]] is a [gmap Z (pystr * pystr)];
    - a raised exception is identified by its class, and the [except]
      clauses test [issubclass] along the class hierarchy. *)

From Stdlib Require Import ZArith NArith QArith.QArith_base List Bool Lia.
From Stdlib.Strings Require Import String Ascii Byte.
From stdpp Require Import gmap list sorting.

Local Open Scope N_scope.

(** ** Python strings and bytes *)

Definition pystr := list N.
Definition pybytes := list byte.

(** A string literal of the source (ASCII only). *)
Definition lit (s : string) : pystr := map Byte.to_N (list_byte_of_string s).

Definition CR : N := 13.
Definition LF : N := 10.
Definition SPACE : N := 32.
Definition REPLACEMENT : N := 0xFFFD.

(** [str.isspace] on one code point: the characters [str.strip()] removes. *)
Definition py_isspace (c : N) : bool :=
  ((0x09 <=? c) && (c <=? 0x0D)) || ((0x1C <=? c) && (c <=? 0x20))
  || (c =? 0x85) || (c =? 0xA0) || (c =? 0x1680)
  || ((0x2000 <=? c) && (c <=? 0x200A))
  || (c =? 0x2028) || (c =? 0x2029) || (c =? 0x202F) || (c =? 0x205F)
  || (c =? 0x3000).

Fixpoint py_lstrip (s : pystr) : pystr :=
  match s with
  | [] => []
  | c :: s' => if py_isspace c then py_lstrip s' else s
  end.

Definition py_rstrip (s : pystr) : pystr := rev (py_lstrip (rev s)).

(** [s.strip()] *)
Definition py_strip (s : pystr) : pystr := py_rstrip (py_lstrip s).

(** [s.replace(old, new)] for one-character [old] and [new]. *)
Definition py_replace (old new : N) (s : pystr) : pystr :=
  map (fun c => if c =? old then new else c) s.

(** *** UTF-8 *)

Definition byte_of_N (n : N) : byte :=
  match Byte.of_N n with Some b => b | None => x00 end.

Definition is_surrogate (c : N) : bool := (0xD800 <=? c) && (c <=? 0xDFFF).

Definition cont_byte (c : N) (shift : N) : byte :=
  byte_of_N (N.lor 0x80 (N.land (N.shiftr c shift) 0x3F)).

(** The UTF-8 encoding of one code point; [None] where [str.encode()]
    raises [UnicodeEncodeError] (a lone surrogate). *)
Definition utf8_encode_char (c : N) : option pybytes :=
  if c <? 0x80 then Some [byte_of_N c]
  else if c <? 0x800 then
    Some [byte_of_N (N.lor 0xC0 (N.shiftr c 6)); cont_byte c 0]
  else if c <? 0x10000 then
    if is_surrogate c then None
    else Some [byte_of_N (N.lor 0xE0 (N.shiftr c 12)); cont_byte c 6; cont_byte c 0]
  else if c <? 0x110000 then
    Some [byte_of_N (N.lor 0xF0 (N.shiftr c 18)); cont_byte c 12; cont_byte c 6;
          cont_byte c 0]
  else None.

Fixpoint utf8_encode (s : pystr) : option pybytes :=
  match s with
  | [] => Some []
  | c :: s' =>
      match utf8_encode_char c, utf8_encode s' with
      | Some bs, Some rest => Some (bs ++ rest)
      | _, _ => None
      end
  end.

(** The decoder state: at a character boundary, or inside a multi-byte
    sequence with [need] continuation bytes to come, the bits gathered so
    far and the range allowed for the next byte. *)
Inductive utf8_state :=
  | U_start
  | U_cont (need : nat) (cp lo hi : N).

(** A byte read at a character boundary. *)
Definition utf8_lead (b : N) : list N * utf8_state :=
  if b <? 0x80 then ([b], U_start)
  else if (0xC2 <=? b) && (b <=? 0xDF) then ([], U_cont 1 (N.land b 0x1F) 0x80 0xBF)
  else if b =? 0xE0 then ([], U_cont 2 (N.land b 0x0F) 0xA0 0xBF)
  else if b =? 0xED then ([], U_cont 2 (N.land b 0x0F) 0x80 0x9F)
  else if (0xE1 <=? b) && (b <=? 0xEF) then ([], U_cont 2 (N.land b 0x0F) 0x80 0xBF)
  else if b =? 0xF0 then ([], U_cont 3 (N.land b 0x07) 0x90 0xBF)
  else if b =? 0xF4 then ([], U_cont 3 (N.land b 0x07) 0x80 0x8F)
  else if (0xF1 <=? b) && (b <=? 0xF3) then ([], U_cont 3 (N.land b 0x07) 0x80 0xBF)
  else ([REPLACEMENT], U_start).

(** [data.decode(errors='replace')]: every maximal ill-formed run of
    bytes becomes one U+FFFD and decoding resumes at the offending byte. *)
Fixpoint utf8_decode_from (st : utf8_state) (bs : pybytes) : pystr :=
  match bs with
  | [] => match st with U_start => [] | U_cont _ _ _ _ => [REPLACEMENT] end
  | b :: bs' =>
      let n := Byte.to_N b in
      match st with
      | U_start =>
          let '(out, st') := utf8_lead n in out ++ utf8_decode_from st' bs'
      | U_cont need cp lo hi =>
          if (lo <=? n) && (n <=? hi) then
            let cp' := N.lor (N.shiftl cp 6) (N.land n 0x3F) in
            match need with
            | S (S k) => utf8_decode_from (U_cont (S k) cp' 0x80 0xBF) bs'
            | _ => cp' :: utf8_decode_from U_start bs'
            end
          else
            let '(out, st') := utf8_lead n in
            REPLACEMENT :: out ++ utf8_decode_from st' bs'
      end
  end.

Definition utf8_decode_replace (bs : pybytes) : pystr := utf8_decode_from U_start bs.

(** Line 79: [data.decode(errors='replace').strip().replace('\r',' ').replace('\n',' ')] *)
Definition banner_of_data (data : pybytes) : pystr :=
  py_replace LF SPACE (py_replace CR SPACE (py_strip (utf8_decode_replace data))).

Definition scenario_b_data : pybytes :=
  list_byte_of_string "HTTP/1.1 200 OK" ++ [x0d; x0a]
  ++ list_byte_of_string "Server: X" ++ [x0d; x0a; x0d; x0a].

(** ** Exceptions

    The classes that the prober's operations can raise, with the
    hierarchy of Python 3.11 and later, where [asyncio.TimeoutError] is
    the built-in [TimeoutError]. [CancelledError] and [KeyboardInterrupt]
    derive from [BaseException] only. *)

Inductive pyclass :=
  | BaseException | Exception
  | OSError | ConnectionError | ConnectionRefusedError | ConnectionResetError
  | BrokenPipeError | TimeoutError
  | ValueError | UnicodeError | UnicodeEncodeError | RuntimeError
  | CancelledError | KeyboardInterrupt.

#[global] Instance pyclass_eq_dec : EqDecision pyclass.
Proof. solve_decision. Defined.

Definition pyclass_base (c : pyclass) : option pyclass :=
  match c with
  | BaseException => None
  | Exception => Some BaseException
  | OSError => Some Exception
  | ConnectionError => Some OSError
  | ConnectionRefusedError => Some ConnectionError
  | ConnectionResetError => Some ConnectionError
  | BrokenPipeError => Some ConnectionError
  | TimeoutError => Some OSError
  | ValueError => Some Exception
  | UnicodeError => Some ValueError
  | UnicodeEncodeError => Some UnicodeError
  | RuntimeError => Some Exception
  | CancelledError => Some BaseException
  | KeyboardInterrupt => Some BaseException
  end.

Fixpoint issubclass_upto (n : nat) (c d : pyclass) : bool :=
  if decide (c = d) then true
  else match n with
       | O => false
       | S n' => match pyclass_base c with
                 | Some b => issubclass_upto n' b d
                 | None => false
                 end
       end.

(** [issubclass(c, d)]; no chain of bases is longer than four. *)
Definition issubclass (c d : pyclass) : bool := issubclass_upto 4 c d.

(** ** The prober's I/O

    One invocation of the prober talks to one peer. A [world] fixes what
    each operation of that invocation does: it completes, or it raises
    an exception of some class. The operations performed are logged as
    [event]s. *)

Inductive outcome (A : Type) :=
  | Ok (a : A)
  | Raise (e : pyclass).
Arguments Ok {A} a.
Arguments Raise {A} e.

Record world := {
  w_connect : outcome unit;      (* await wait_for(open_connection(host, port), timeout) *)
  w_write : outcome unit;        (* writer.write(...) *)
  w_drain : outcome unit;        (* await writer.drain() *)
  w_read : outcome pybytes;      (* what the peer delivers to reader.read within the deadline *)
  w_close : outcome unit;        (* writer.close() *)
  w_wait_closed : outcome unit;  (* await writer.wait_closed() *)
}.

Inductive event :=
  | EvConnect (host : pystr) (port : Z) (timeout : Q)
  | EvWrite (data : pybytes)
  | EvDrain
  | EvRead (n : nat) (deadline : Q)
  | EvClose
  | EvWaitClosed.

Definition IO (A : Type) : Type := world -> list event -> outcome A * list event.

Definition ret {A} (a : A) : IO A := fun _ tr => (Ok a, tr).

Definition raise {A} (e : pyclass) : IO A := fun _ tr => (Raise e, tr).

Definition bind {A B} (m : IO A) (k : A -> IO B) : IO B :=
  fun w tr =>
    match m w tr with
    | (Ok a, tr') => k a w tr'
    | (Raise e, tr') => (Raise e, tr')
    end.

#[global] Instance IO_ret : MRet IO := @ret.
#[global] Instance IO_bind : MBind IO := fun A B k m => bind m k.

(** An operation: log the call, then let the world decide. *)
Definition perform {A} (ev : event) (f : world -> outcome A) : IO A :=
  fun w tr => (f w, tr ++ [ev]).

(** The first [except] clause whose class the raised exception is an
    instance of. *)
Fixpoint find_clause {A} (e : pyclass) (clauses : list (pyclass * IO A)) : option (IO A) :=
  match clauses with
  | [] => None
  | (c, h) :: rest => if issubclass e c then Some h else find_clause e rest
  end.

(** [try: m  except c1: h1  except c2: h2 ...] *)
Definition try_except {A} (m : IO A) (clauses : list (pyclass * IO A)) : IO A :=
  fun w tr =>
    match m w tr with
    | (Ok a, tr') => (Ok a, tr')
    | (Raise e, tr') =>
        match find_clause e clauses with
        | Some h => h w tr'
        | None => (Raise e, tr')
        end
    end.

(** [try: m  finally: fin]: [fin] always runs; an exception of [fin]
    replaces the outcome of [m]. *)
Definition try_finally {A} (m : IO A) (fin : IO unit) : IO A :=
  fun w tr =>
    match m w tr with
    | (r, tr') =>
        match fin w tr' with
        | (Ok _, tr'') => (r, tr'')
        | (Raise e, tr'') => (Raise e, tr'')
        end
    end.

(** *** The operations of [asyncio] that the prober calls *)

Definition open_connection (host : pystr) (port : Z) (timeout : Q) : IO unit :=
  perform (EvConnect host port timeout) w_connect.

Definition str_encode (s : pystr) : IO pybytes :=
  match utf8_encode s with
  | Some bs => ret bs
  | None => raise UnicodeEncodeError
  end.

Definition writer_write (data : pybytes) : IO unit := perform (EvWrite data) w_write.

Definition writer_drain : IO unit := perform EvDrain w_drain.

(** [wait_for(reader.read(n), timeout=deadline)]: at most [n] bytes of
    what the peer delivered. *)
Definition reader_read (n : nat) (deadline : Q) : IO pybytes :=
  perform (EvRead n deadline)
    (fun w => match w_read w with
              | Ok data => Ok (take n data)
              | Raise e => Raise e
              end).

Definition writer_close : IO unit := perform EvClose w_close.

Definition writer_wait_closed : IO unit := perform EvWaitClosed w_wait_closed.

(** ** The connection prober (lines 55-88) *)

Definition OPEN : pystr := lit "OPEN".
Definition CLOSED : pystr := lit "CLOSED".
Definition FILTERED : pystr := lit "FILTERED".

Definition HTTP_PORTS : list Z := [80; 8080; 8000; 443]%Z.

(** [port in (80, 8080, 8000, 443)] *)
Definition is_http_port (port : Z) : bool := existsb (Z.eqb port) HTTP_PORTS.

(** [f"GET / HTTP/1.0\r\nHost: {host}\r\n\r\n"] *)
Definition http_request (host : pystr) : pystr :=
  lit "GET / HTTP/1.0" ++ [CR; LF] ++ lit "Host: " ++ host ++ [CR; LF; CR; LF].

Definition READ_LIMIT : nat := 4096.
Definition READ_DEADLINE : Q := Qmake 9 10.

(** Lines 69-79, the body of the second [try]; its value is [banner]. *)
Definition read_banner (host : pystr) (port : Z) : IO pystr :=
  (if is_http_port port then
     req ← str_encode (http_request host);
     writer_write req ;;
     writer_drain
   else ret tt) ;;
  data ← try_except (reader_read READ_LIMIT READ_DEADLINE)
            [(TimeoutError, ret [])];
  match data with
  | [] => ret []
  | _ :: _ => ret (banner_of_data data)
  end.

(** Lines 83-87 *)
Definition close_writer : IO unit :=
  try_except (writer_close ;; writer_wait_closed) [(Exception, ret tt)].

(** Lines 68-87: the banner phase, entered once the connection is
    established; exceptions of the body are swallowed and the writer is
    closed on every path. *)
Definition connected_phase (host : pystr) (port : Z) : IO pystr :=
  try_finally (try_except (read_banner host port) [(Exception, ret [])]) close_writer.

Definition probe_port_once (host : pystr) (port : Z) (timeout : Q) : IO (pystr * pystr) :=
  early ← try_except
             (open_connection host port timeout ;; ret None)
             [(TimeoutError, ret (Some (FILTERED, [])));
              (ConnectionRefusedError, ret (Some (CLOSED, [])));
              (OSError, ret (Some (FILTERED, [])));
              (Exception, ret (Some (FILTERED, [])))];
  match early with
  | Some result => ret result
  | None =>
      banner ← connected_phase host port;
      ret (OPEN, banner)
  end.

(** Running one invocation against a world, from an empty log. *)
Definition run_probe (host : pystr) (port : Z) (timeout : Q) (w : world)
  : outcome (pystr * pystr) * list event :=
  probe_port_once host port timeout w [].

(** All failures of the world are ordinary errors, instances of
    [Exception]: no operation is interrupted by a task cancellation or a
    keyboard interrupt. *)
Definition raises_only {A} (c : pyclass) (o : outcome A) : bool :=
  match o with
  | Ok _ => true
  | Raise e => issubclass e c
  end.

Definition ordinary_failures (w : world) : bool :=
  raises_only Exception (w_connect w) && raises_only Exception (w_write w)
  && raises_only Exception (w_drain w) && raises_only Exception (w_read w)
  && raises_only Exception (w_close w) && raises_only Exception (w_wait_closed w).

(** Some worlds to run the prober against. *)
Definition accepting_world (data : outcome pybytes) : world :=
  {| w_connect := Ok tt; w_write := Ok tt; w_drain := Ok tt;
     w_read := data; w_close := Ok tt; w_wait_closed := Ok tt |}.

Definition failing_world (e : pyclass) : world :=
  {| w_connect := Raise e; w_write := Ok tt; w_drain := Ok tt;
     w_read := Ok []; w_close := Ok tt; w_wait_closed := Ok tt |}.

Definition silent_world : world := accepting_world (Raise TimeoutError).

Definition broken_pipe_world : world :=
  {| w_connect := Ok tt; w_write := Raise BrokenPipeError; w_drain := Ok tt;
     w_read := Ok scenario_b_data; w_close := Raise OSError; w_wait_closed := Ok tt |}.

Definition example_host : pystr := lit "example.org".


(** ** Vocabulary for the outcomes of monadic code *)

(** [m] returns in world [w], whatever the log. *)
Definition returns {A} (m : IO A) (w : world) : Prop :=
  ∀ tr, ∃ a tr', m w tr = (Ok a, tr').

(** [m] returns or raises an ordinary error in world [w]. *)
Definition contained {A} (m : IO A) (w : world) : Prop :=
  ∀ tr, match (m w tr).1 with
        | Ok _ => True
        | Raise e => issubclass e Exception = true
        end.


Local Close Scope N_scope.

(** ** The probe engine (lines 90-107)

    [run_scan] creates one worker task per submitted port and awaits them
    all. The tasks are interleaved by the event loop at their [await]s
    only, so a worker is observed in one of four states, and it touches
    the shared semaphore and the shared [results] dictionary in two
    atomic steps: entering [async with sem], and the code that follows the
    return of [probe_port_once]. *)

Inductive task_state :=
  | Waiting               (* created, not yet inside [async with sem] *)
  | Probing               (* holds the gate, inside [probe_port_once] *)
  | Finished              (* wrote its result and released the gate *)
  | Failed (e : pyclass). (* the probe raised; the gate is released *)

#[global] Instance task_state_eq_dec : EqDecision task_state.
Proof. solve_decision. Defined.

Record task := {
  t_port : Z;
  t_world : world;  (* what the network does to this task's probe *)
  t_state : task_state;
}.

Record scan := {
  sem_value : Z;                          (* the semaphore's free permits *)
  tasks : list task;                      (* [tasks], in creation order *)
  results : gmap Z (pystr * pystr);       (* the [results] dictionary *)
  progress : nat;                         (* passes through line 99: the count of the bar, if there is one *)
  raised : option pyclass;                (* the first exception of a worker *)
  writes : list (Z * (pystr * pystr));    (* history of the stores into [results] *)
}.

Definition set_state (st : task_state) (t : task) : task :=
  {| t_port := t_port t; t_world := t_world t; t_state := st |}.

(** Line 103: one task per element of [ports]; [env i] is the world that
    the probe of the [i]-th task faces. *)
Definition create_tasks (ports : list Z) (env : nat → world) : list task :=
  imap (λ i p, {| t_port := p; t_world := env i; t_state := Waiting |}) ports.

Definition scan_init (ports : list Z) (concurrency : Z) (env : nat → world) : scan :=
  {| sem_value := concurrency; tasks := create_tasks ports env; results := ∅;
     progress := 0; raised := None; writes := [] |}.

(** Task [i] enters [async with sem]: possible only with a free permit. *)
Definition worker_enter (i : nat) (t : task) (s : scan) : option scan :=
  if (0 <? sem_value s)%Z then
    Some {| sem_value := sem_value s - 1; tasks := <[i := set_state Probing t]> (tasks s);
            results := results s; progress := progress s; raised := raised s;
            writes := writes s |}
  else None.

(** The probe of task [i] is over: lines 98-101 and the exit of
    [async with sem], which releases the permit on every path. *)
Definition worker_leave (host : pystr) (timeout : Q) (i : nat) (t : task) (s : scan) : scan :=
  match (run_probe host (t_port t) timeout (t_world t)).1 with
  | Ok r =>
      {| sem_value := sem_value s + 1; tasks := <[i := set_state Finished t]> (tasks s);
         results := <[t_port t := r]> (results s); progress := S (progress s);
         raised := raised s; writes := writes s ++ [(t_port t, r)] |}
  | Raise e =>
      {| sem_value := sem_value s + 1; tasks := <[i := set_state (Failed e) t]> (tasks s);
         results := results s; progress := progress s;
         raised := match raised s with Some e' => Some e' | None => Some e end;
         writes := writes s |}
  end.

(** One step of the event loop: it resumes task [i]. *)
Definition step (host : pystr) (timeout : Q) (i : nat) (s : scan) : option scan :=
  match tasks s !! i with
  | Some t =>
      match t_state t with
      | Waiting => worker_enter i t s
      | Probing => Some (worker_leave host timeout i t s)
      | Finished | Failed _ => None
      end
  | None => None
  end.

(** The event loop resumes the tasks in the order [sched]. *)
Fixpoint exec (host : pystr) (timeout : Q) (sched : list nat) (s : scan) : option scan :=
  match sched with
  | [] => Some s
  | i :: sched' =>
      match step host timeout i s with
      | Some s' => exec host timeout sched' s'
      | None => None
      end
  end.

Definition is_finished (t : task) : bool :=
  match t_state t with Finished => true | _ => false end.

Definition is_probing (t : task) : bool :=
  match t_state t with Probing => true | _ => false end.

(** The number of tasks inside [probe_port_once], holding the gate. *)
Definition running (s : scan) : nat := length (filter (λ t, is_probing t = true) (tasks s)).

(** [await asyncio.gather] over the tasks: raises the first exception of a
    worker, returns once every worker has returned, and is pending
    ([None]) otherwise. *)
Definition gather (s : scan) : option (outcome unit) :=
  match raised s with
  | Some e => Some (Raise e)
  | None => if forallb is_finished (tasks s) then Some (Ok tt) else None
  end.

(** [run_scan] under the schedule [sched]: [None] when the schedule is
    not a run of the event loop up to the return of [run_scan].
    [Semaphore(concurrency)] raises [ValueError] on a negative value. *)
Definition run_scan (host : pystr) (ports : list Z) (concurrency : Z) (timeout : Q)
    (env : nat → world) (sched : list nat) : option (outcome (gmap Z (pystr * pystr))) :=
  if (concurrency <? 0)%Z then Some (Raise ValueError)
  else
    match exec host timeout sched (scan_init ports concurrency env) with
    | Some s =>
        match gather s with
        | Some (Ok _) => Some (Ok (results s))
        | Some (Raise e) => Some (Raise e)
        | None => None
        end
    | None => None
    end.

(** The states that the event loop can reach. *)
Definition reachable (host : pystr) (ports : list Z) (concurrency : Z) (timeout : Q)
    (env : nat → world) (s : scan) : Prop :=
  ∃ sched, exec host timeout sched (scan_init ports concurrency env) = Some s.

(** First-in, first-out scheduling: every task is resumed twice, in
    creation order. *)
Definition fifo_schedule (n : nat) : list nat := seq 0 n ≫= (λ i, [i; i]).

(** *** Measure and invariant of the event loop *)

(** The steps a task still has to take. *)
Definition weight (t : task) : nat :=
  match t_state t with Waiting => 2 | Probing => 1 | Finished | Failed _ => 0 end.

Definition potential (s : scan) : nat := sum_list_with weight (tasks s).

Definition never_failed (t : task) : Prop := ∀ e, t_state t ≠ Failed e.

(** What holds of every state of a scan of [ports] under [concurrency]
    permits. *)
Record scan_inv (host : pystr) (ports : list Z) (concurrency : Z) (timeout : Q)
    (env : nat → world) (s : scan) : Prop := {
  inv_ports : t_port <$> tasks s = ports;
  inv_worlds : ∀ i t, tasks s !! i = Some t → t_world t = env i;
  inv_permits : (sem_value s + Z.of_nat (running s) = concurrency)%Z;
  inv_permits_nonneg : (0 ≤ sem_value s)%Z;
  inv_results : results s = list_to_map (reverse (writes s));
  inv_writes : (writes s).*1 ≡ₚ t_port <$> filter (λ t, is_finished t = true) (tasks s);
  inv_progress : progress s = length (writes s);
  inv_written : ∀ p r, (p, r) ∈ writes s →
                  ∃ i, ports !! i = Some p ∧ (run_probe host p timeout (env i)).1 = Ok r;
  inv_raised : raised s = None ↔ Forall never_failed (tasks s);
}.

(** ** The row filter of the report (lines 150-158) *)

Record report_item := {
  port : Z;
  status : pystr;
  service : pystr;
  version : pystr;
}.

Definition pystr_eqb (a b : pystr) : bool := bool_decide (a = b).

(** [x in (a, b)] on strings *)
Definition pystr_in (x : pystr) (xs : list pystr) : bool := existsb (pystr_eqb x) xs.

(** The truth value of a string: non-empty. *)
Definition truthy (s : pystr) : bool := match s with [] => false | _ :: _ => true end.

(** The two strings of the tuple of line 156: the empty string and the
    placeholder of a service that the scan tool could not name. *)
Definition EMPTY : pystr := [].
Definition UNKNOWN : pystr := lit "(unknown)".

(** [str.lower] restricted to the ASCII letters. *)
Definition ascii_lower (s : pystr) : pystr :=
  map (λ c, if (65 <=? c) && (c <=? 90) then c + 32 else c)%N s.

Section ReportRows.
(** [str.lower]: its case tables are Python's, not the program's. *)
Variable str_lower : pystr → pystr.

(** Line 156 *)
Definition row_shown (item : report_item) : bool :=
  let s := status item in
  let svc := service item in
  pystr_eqb s OPEN
  || (pystr_eqb s FILTERED && truthy svc && negb (pystr_in (str_lower svc) [EMPTY; UNKNOWN])).

(** Lines 152-157: the loop appending to [rows]. *)
Fixpoint collect_rows (rows : list (Z * pystr * pystr * pystr)) (merged_ports : list report_item)
  : list (Z * pystr * pystr * pystr) :=
  match merged_ports with
  | [] => rows
  | item :: rest =>
      if row_shown item
      then collect_rows (rows ++ [(port item, status item, service item, version item)]) rest
      else collect_rows rows rest
  end.

(** [print_table]: the notice of line 160 when no row is left, the
    table of the rows otherwise. *)
Definition print_table (merged_ports : list report_item)
  : option (list (Z * pystr * pystr * pystr)) :=
  match collect_rows [] merged_ports with
  | [] => None
  | rows => Some rows
  end.
End ReportRows.

(** The rows of the rendered table. *)
Definition table_rows (str_lower : pystr → pystr) (merged_ports : list report_item)
  : list (Z * pystr * pystr * pystr) :=
  default [] (print_table str_lower merged_ports).

(** A merged report to render. *)
Definition example_report : list report_item :=
  [ {| port := 22; status := OPEN; service := []; version := lit "SSH-2.0" |};
    {| port := 23; status := CLOSED; service := lit "telnet"; version := [] |};
    {| port := 25; status := FILTERED; service := lit "smtp"; version := [] |};
    {| port := 80; status := FILTERED; service := lit "(Unknown)"; version := [] |};
    {| port := 81; status := FILTERED; service := []; version := [] |} ].


(** ** Measures used in the proofs about the decoder *)

(** A sequence left open by the end of the data costs one character. *)
Definition utf8_pending (st : utf8_state) : nat :=
  match st with U_start => 0 | U_cont _ _ _ _ => 1 end.

(** ** The progress bar (lines 94, 100-101)

    [progress] is a [tqdm] bar when the module could be imported and
    [None] otherwise, and only a bar is ticked ([if progress:]; a bar
    counts as true when its total is positive, which [len(ports)] is
    whenever a worker runs). The bar is ticked right after every store
    into [results], so its count is the field [progress] of the state;
    without [tqdm] there is no bar. *)
Definition progress_bar (tqdm : bool) (s : scan) : option nat :=
  if tqdm then Some (progress s) else None.

(** ** More of Python's strings *)

Definition COMMA : N := 44%N.
Definition DASH : N := 45%N.
Definition UNDERSCORE : N := 95%N.

(** [c in s] for a one-character [c] *)
Definition py_contains (c : N) (s : pystr) : bool := existsb (N.eqb c) s.

(** [s.split(sep)] for a one-character [sep]: never empty, and empty
    parts are kept. *)
Fixpoint py_split (sep : N) (s : pystr) : list pystr :=
  match s with
  | [] => [[]]
  | c :: s' =>
      if (c =? sep)%N then [] :: py_split sep s'
      else match py_split sep s' with
           | [] => [[c]]
           | part :: parts => (c :: part) :: parts
           end
  end.

(** [sep.join(parts)] *)
Fixpoint py_join (sep : pystr) (parts : list pystr) : pystr :=
  match parts with
  | [] => []
  | [part] => part
  | part :: rest => part ++ sep ++ py_join sep rest
  end.

(** [range(a, b)], as a list. A range is taken to fit in memory: on a
    range too long for that, line 217 raises instead of extending. *)
Definition py_range (a b : Z) : list Z := seqZ a (b - a).

(** [sorted(set(xs))] on integers *)
Definition sorted_set (xs : list Z) : list Z := merge_sort Z.le (remove_dups xs).

(** [int(s)] restricted to ASCII: white space around, an optional sign,
    then decimal digits that single underscores may separate. *)
Fixpoint decimal_digits (acc : Z) (after_digit : bool) (s : pystr) : option Z :=
  match s with
  | [] => if after_digit then Some acc else None
  | c :: s' =>
      if (48 <=? c)%N && (c <=? 57)%N
      then decimal_digits (10 * acc + Z.of_N (c - 48)) true s'
      else if (c =? UNDERSCORE)%N && after_digit then decimal_digits acc false s'
      else None
  end.

Definition ascii_int (s : pystr) : option Z :=
  match py_strip s with
  | 43%N :: digits => decimal_digits 0 false digits
  | 45%N :: digits => Z.opp <$> decimal_digits 0 false digits
  | digits => decimal_digits 0 false digits
  end.

(** ** The port specification of the command line (lines 213-220) *)

Section PortSpec.
(** [int]: its digit tables are Python's; [None] where it raises
    [ValueError]. *)
Variable py_int : pystr → option Z.

(** The loop of lines 214-219, [ports] being the list built so far. A
    part with a dash is unpacked into exactly two integers. *)
Fixpoint collect_ports (ports : list Z) (parts : list pystr) : outcome (list Z) :=
  match parts with
  | [] => Ok ports
  | part :: rest =>
      if py_contains DASH part then
        match py_int <$> py_split DASH part with
        | [Some a; Some b] => collect_ports (ports ++ py_range a (b + 1)) rest
        | _ => Raise ValueError
        end
      else
        match py_int part with
        | Some n => collect_ports (ports ++ [n]) rest
        | None => Raise ValueError
        end
  end.

(** Lines 213-220: the ports that [main] hands to [run_scan]; [Raise]
    where no list is handed over because an [int] or an unpacking has
    failed. *)
Definition parse_ports (spec : pystr) : outcome (list Z) :=
  match collect_ports [] (py_split COMMA spec) with
  | Ok ports => Ok (sorted_set ports)
  | Raise e => Raise e
  end.
End PortSpec.

(** ** The dictionary in Python's order

    A Python [dict] lists its items in the order in which the keys were
    first stored; a later store under the same key changes the value in
    place. *)

Fixpoint dict_store {V} (k : Z) (v : V) (d : list (Z * V)) : list (Z * V) :=
  match d with
  | [] => [(k, v)]
  | (k', v') :: d' =>
      if decide (k' = k) then (k, v) :: d' else (k', v') :: dict_store k v d'
  end.

(** The items of a dictionary after the stores [stores], oldest first. *)
Definition dict_items {V} (stores : list (Z * V)) : list (Z * V) :=
  foldl (λ d kv, dict_store kv.1 kv.2 d) [] stores.

(** The keys of a sequence of stores in the order of their first store:
    every later occurrence of a key is dropped. *)
Fixpoint first_occurrences (keys : list Z) : list Z :=
  match keys with
  | [] => []
  | k :: rest => k :: filter (λ k', k' ≠ k) (first_occurrences rest)
  end.

(** [probe_results.items()] for the dictionary of the state [s]. *)
Definition results_items (s : scan) : list (Z * (pystr * pystr)) := dict_items (writes s).

(** ** Merging the probes with the scan tool's services (lines 227-230) *)

Definition VERSION_WIDTH : nat := 120.

(** The loop of lines 228-230, [merged] being the list built so far:
    [nmap_info.get(port, '')] and [banner[:120]]. The values of
    [nmap_info] are strings, as its annotation [Dict[int,str]] has it. *)
Fixpoint merge_rows (merged : list report_item) (items : list (Z * (pystr * pystr)))
    (nmap_info : gmap Z pystr) : list report_item :=
  match items with
  | [] => merged
  | (p, (s, banner)) :: rest =>
      merge_rows
        (merged ++ [{| port := p; status := s; service := default [] (nmap_info !! p);
                       version := take VERSION_WIDTH banner |}])
        rest nmap_info
  end.

(** ** The output of the scan tool (lines 110-147)

    [ET.fromstring] gives a tree of elements, each with a tag, a
    dictionary of attributes and a list of children. *)

#[local] Unset Elimination Schemes.
Inductive xml :=
  | Element (tag : pystr) (attrib : gmap pystr pystr) (children : list xml).
#[local] Set Elimination Schemes.

Definition xml_tag (el : xml) : pystr := match el with Element t _ _ => t end.
Definition xml_attrib (el : xml) : gmap pystr pystr := match el with Element _ a _ => a end.
Definition xml_children (el : xml) : list xml := match el with Element _ _ c => c end.

(** [el.findall(tag)]: the direct children with that tag, in order. *)
Definition xml_findall (tag : pystr) (el : xml) : list xml :=
  filter (λ c, xml_tag c = tag) (xml_children el).

(** [el.find(tag)]: the first of them, or [None]. *)
Definition xml_find (tag : pystr) (el : xml) : option xml := head (xml_findall tag el).

(** [el.get(key)] *)
Definition xml_get (key : pystr) (el : xml) : option pystr := xml_attrib el !! key.

(** The exceptions of [int(port_el.get('portid'))]: [TypeError] on
    [None], [ValueError] on a text that is no integer. Nothing in
    [run_nmap_and_parse] catches them. *)
Inductive int_error := IntTypeError | IntValueError.

Inductive parse_outcome (A : Type) :=
  | Parsed (a : A)
  | Failed_int (e : int_error).
Arguments Parsed {A} a.
Arguments Failed_int {A} e.

(** [v or ''] *)
Definition or_empty (v : option pystr) : pystr := default [] v.

(** Lines 136-143: the description of a service element. *)
Definition service_description (service_el : option xml) : pystr :=
  match service_el with
  | None => []
  | Some el =>
      let name := or_empty (xml_get (lit "name") el) in
      let product := or_empty (xml_get (lit "product") el) in
      let version := or_empty (xml_get (lit "version") el) in
      let extrainfo := or_empty (xml_get (lit "extrainfo") el) in
      py_join [SPACE] (filter (λ p, truthy p = true) [name; product; version; extrainfo])
  end.

(** The [port] elements that the loops of lines 124-127 visit, in order:
    those of the first [ports] child of every [host] child of the root. *)
Definition nmap_port_elements (root : xml) : list xml :=
  xml_findall (lit "host") root ≫=
    (λ host, match xml_find (lit "ports") host with
             | Some ports_el => xml_findall (lit "port") ports_el
             | None => []
             end).

(** Line 117 either completes, with what the process wrote on its two
    pipes decoded as text, or raises: an [OSError] when the program
    cannot be started, a [UnicodeDecodeError] when what it wrote is no
    text in the encoding of the locale. Nothing around the call catches
    anything, so the exception is kept by the name of its class only. *)
Inductive completed_process :=
  | Completed (stdout stderr : pystr)
  | RunRaises (cls : string).

(** Line 122 gives a tree, or raises [ParseError], the one exception
    that line 145 catches, or raises something else. *)
Inductive fromstring_result :=
  | Tree (root : xml)
  | ParseError
  | FromstringRaises (cls : string).

(** What [run_nmap_and_parse] meets: whether [nmap] is installed, the
    exception of the [print] of line 116 if it raises one, how
    [subprocess.run] ends, and what [ET.fromstring] makes of a text. *)
Record nmap_run := {
  which_nmap : option pystr;
  debug_print : option string;
  subprocess_run : completed_process;
  fromstring : pystr → fromstring_result;
}.

(** How [run_nmap_and_parse] ends: it returns, or an exception of lines
    116, 117 or 122 leaves it, or one of [int] at line 131. *)
Inductive nmap_outcome (A : Type) :=
  | Returned (a : A)
  | Raised (cls : string)
  | Raised_int (e : int_error).
Arguments Returned {A} a.
Arguments Raised {A} cls.
Arguments Raised_int {A} e.

Section NmapParse.
Variable py_int : pystr → option Z.

(** Lines 128-144: one [port] element. An entry holds a string, or
    [None] when the [state] element has no [state] attribute. *)
Definition parse_port (parsed : gmap Z (option pystr)) (port_el : xml)
  : parse_outcome (gmap Z (option pystr)) :=
  match xml_find (lit "state") port_el with
  | None => Parsed parsed
  | Some state_el =>
      let state := xml_get (lit "state") state_el in
      match xml_get (lit "portid") port_el with
      | None => Failed_int IntTypeError
      | Some text =>
          match py_int text with
          | None => Failed_int IntValueError
          | Some portid =>
              if decide (state ≠ Some (lit "open")) then Parsed (<[portid := state]> parsed)
              else
                let svc_desc := service_description (xml_find (lit "service") port_el) in
                Parsed (<[portid := Some (if truthy svc_desc then svc_desc else UNKNOWN)]>
                          parsed)
          end
      end
  end.

(** Line 127: the loop over the [port] elements. *)
Fixpoint parse_port_list (parsed : gmap Z (option pystr)) (port_els : list xml)
  : parse_outcome (gmap Z (option pystr)) :=
  match port_els with
  | [] => Parsed parsed
  | port_el :: rest =>
      match parse_port parsed port_el with
      | Parsed parsed' => parse_port_list parsed' rest
      | Failed_int e => Failed_int e
      end
  end.

(** Lines 124-127: the loop over the [host] elements. *)
Fixpoint parse_host_list (parsed : gmap Z (option pystr)) (hosts : list xml)
  : parse_outcome (gmap Z (option pystr)) :=
  match hosts with
  | [] => Parsed parsed
  | host :: rest =>
      match xml_find (lit "ports") host with
      | None => parse_host_list parsed rest
      | Some ports_el =>
          match parse_port_list parsed (xml_findall (lit "port") ports_el) with
          | Parsed parsed' => parse_host_list parsed' rest
          | Failed_int e => Failed_int e
          end
      end
  end.

(** Lines 123-144 *)
Definition parse_nmap_root (root : xml) : parse_outcome (gmap Z (option pystr)) :=
  parse_host_list ∅ (xml_findall (lit "host") root).

(** [run_nmap_and_parse]: the triple (parsed, stderr, xml_out). The
    target and the port specification only make up the command line. *)
Definition run_nmap_and_parse (debug : bool) (run : nmap_run)
  : nmap_outcome (gmap Z (option pystr) * pystr * option pystr) :=
  match which_nmap run with
  | None => Returned (∅, [], None)
  | Some _ =>
      match (if debug then debug_print run else None) with
      | Some cls => Raised cls
      | None =>
          match subprocess_run run with
          | RunRaises cls => Raised cls
          | Completed stdout stderr =>
              let xml_out := stdout in
              if truthy xml_out then
                match fromstring run xml_out with
                | ParseError => Returned (∅, stderr, Some xml_out)
                | FromstringRaises cls => Raised cls
                | Tree root =>
                    match parse_nmap_root root with
                    | Parsed parsed => Returned (parsed, stderr, Some xml_out)
                    | Failed_int e => Raised_int e
                    end
                end
              else Returned (∅, stderr, Some xml_out)
          end
      end
  end.
End NmapParse.

(** An output of the scan tool: port 22 open with a named service, port
    25 filtered, port 80 open with no service element. *)
Definition example_port (portid state : string) (service : list xml) : xml :=
  Element (lit "port") {[ lit "portid" := lit portid ]}
    (Element (lit "state") {[ lit "state" := lit state ]} [] :: service).

Definition example_nmap_root : xml :=
  Element (lit "nmaprun") ∅
    [ Element (lit "host") ∅
        [ Element (lit "ports") ∅
            [ example_port "22" "open"
                [ Element (lit "service")
                    {[ lit "name" := lit "ssh"; lit "product" := lit "OpenSSH" ]} [] ];
              example_port "25" "filtered" [];
              example_port "80" "open" [] ] ] ].

(** The same with a port whose number cannot be read. *)
Definition broken_nmap_root : xml :=
  Element (lit "nmaprun") ∅
    [ Element (lit "host") ∅
        [ Element (lit "ports") ∅
            [ example_port "22" "open" []; example_port "http" "open" [] ] ] ].

(** Two hosts that both report port 22. *)
Definition repeated_nmap_root : xml :=
  Element (lit "nmaprun") ∅
    [ Element (lit "host") ∅
        [ Element (lit "ports") ∅ [ example_port "22" "open" [] ] ];
      Element (lit "host") ∅
        [ Element (lit "ports") ∅ [ example_port "22" "closed" [] ] ] ].

Definition example_nmap_run (root : xml) : nmap_run :=
  {| which_nmap := Some (lit "/usr/bin/nmap"); debug_print := None;
     subprocess_run := Completed (lit "<nmaprun/>") [];
     fromstring := λ _, Tree root |}.

(** A run in which the program cannot be started, and one in which what
    it wrote cannot be decoded. *)
Definition unstartable_nmap_run : nmap_run :=
  {| which_nmap := Some (lit "/usr/bin/nmap"); debug_print := None;
     subprocess_run := RunRaises "PermissionError";
     fromstring := λ _, ParseError |}.

Definition undecodable_nmap_run : nmap_run :=
  {| which_nmap := Some (lit "/usr/bin/nmap"); debug_print := None;
     subprocess_run := RunRaises "UnicodeDecodeError";
     fromstring := λ _, ParseError |}.

(** ** Colouring the analysis (lines 185-195) *)

(** The characters at which [str.splitlines] breaks a line. *)
Definition is_line_break (c : N) : bool :=
  ((10 <=? c) && (c <=? 13) || (28 <=? c) && (c <=? 30)
   || (c =? 0x85) || (c =? 0x2028) || (c =? 0x2029))%N.

(** [s.splitlines()], [cur] being the line read so far: a carriage
    return followed by a line feed is one break, and a break at the very
    end opens no further line. *)
Fixpoint splitlines_from (cur : pystr) (s : pystr) : list pystr :=
  match s with
  | [] => match cur with [] => [] | _ :: _ => [cur] end
  | c :: s' =>
      if is_line_break c then
        match s' with
        | c' :: s'' =>
            if (c =? CR)%N && (c' =? LF)%N then cur :: splitlines_from [] s''
            else cur :: splitlines_from [] s'
        | [] => cur :: splitlines_from [] s'
        end
      else splitlines_from (cur ++ [c]) s'
  end.

Definition py_splitlines (s : pystr) : list pystr := splitlines_from [] s.

(** [s.startswith(prefix)] *)
Fixpoint py_startswith (prefix s : pystr) : bool :=
  match prefix, s with
  | [], _ => true
  | _ :: _, [] => false
  | a :: prefix', b :: s' => (a =? b)%N && py_startswith prefix' s'
  end.

(** [word in s] *)
Fixpoint py_substring (word s : pystr) : bool :=
  py_startswith word s
  || match s with [] => false | _ :: s' => py_substring word s' end.

Definition HIGHLIGHT_WORDS : list pystr :=
  [lit "VULNERABILITIES"; lit "impact"; lit "recommendation"; lit "cve";
   lit "advisories"; lit "EXPLOITATION STEPS"; lit "remediation"; lit "DETECTION"].

Section Highlight.
Variable str_lower : pystr → pystr.
(** [Fore.CYAN], [Fore.YELLOW], [Fore.WHITE], [Style.BRIGHT] and
    [Style.RESET_ALL]: escape codes, or empty strings without colorama. *)
Variables CYAN YELLOW WHITE BRIGHT RESET_ALL : pystr.

(** Lines 189-194: one line, coloured. *)
Definition highlight_line (line : pystr) : pystr :=
  if py_startswith (lit "**") (py_strip line) || py_startswith (lit "#") (py_strip line)
  then CYAN ++ BRIGHT ++ line ++ RESET_ALL
  else if existsb (λ word, py_substring word (str_lower line)) HIGHLIGHT_WORDS
  then YELLOW ++ line ++ RESET_ALL
  else WHITE ++ line ++ RESET_ALL.

(** The loop of lines 188-194. *)
Fixpoint highlight_lines (colored : list pystr) (lines : list pystr) : list pystr :=
  match lines with
  | [] => colored
  | line :: rest => highlight_lines (colored ++ [highlight_line line]) rest
  end.

Definition highlight_gemini_output (text : pystr) : pystr :=
  py_join [LF] (highlight_lines [] (py_splitlines text)).
End Highlight.
(** * Properties of the prober *)

Arguments issubclass : simpl never.
Arguments is_http_port : simpl never.
Arguments banner_of_data : simpl never.
Arguments utf8_encode : simpl never.
Arguments READ_LIMIT : simpl never.
Arguments READ_DEADLINE : simpl never.

(** ** The class hierarchy *)

Lemma issubclass_refl c : issubclass c c = true.
Proof. by destruct c. Qed.

Lemma issubclass_trans c d e :
  issubclass c d = true → issubclass d e = true → issubclass c e = true.
Proof. destruct c, d; try discriminate; destruct e; done. Qed.

Lemma refused_not_timeout e :
  issubclass e ConnectionRefusedError = true → issubclass e TimeoutError = false.
Proof. by destruct e. Qed.

Lemma OSError_is_Exception e :
  issubclass e OSError = true → issubclass e Exception = true.
Proof. intros H. by apply issubclass_trans with OSError. Qed.

(** ** Outcomes of the monadic combinators *)

Lemma returns_contained {A} (m : IO A) w : returns m w → contained m w.
Proof. intros H tr. destruct (H tr) as (a & tr' & ->). done. Qed.

Lemma ret_returns {A} (a : A) w : returns (ret a) w.
Proof. intros tr. by exists a, tr. Qed.

Lemma perform_contained {A} ev (f : world → outcome A) w :
  raises_only Exception (f w) = true → contained (perform ev f) w.
Proof. intros H tr. unfold perform. simpl. by destruct (f w). Qed.

Lemma bind_contained {A B} (m : IO A) (k : A → IO B) w :
  contained m w → (∀ a, contained (k a) w) → contained (bind m k) w.
Proof.
  intros Hm Hk tr. unfold bind. specialize (Hm tr).
  destruct (m w tr) as [[a|e] tr']; simpl in *; [apply Hk | done].
Qed.

Lemma bind_returns {A B} (m : IO A) (k : A → IO B) w :
  returns m w → (∀ a, returns (k a) w) → returns (bind m k) w.
Proof.
  intros Hm Hk tr. unfold bind. destruct (Hm tr) as (a & tr' & ->). apply Hk.
Qed.

Lemma try_except_contained {A} (m : IO A) clauses w :
  contained m w → Forall (λ ch, contained ch.2 w) clauses →
  contained (try_except m clauses) w.
Proof.
  intros Hm Hc tr. unfold try_except. specialize (Hm tr).
  destruct (m w tr) as [[a|e] tr']; simpl in *; [done|].
  destruct (find_clause e clauses) as [h|] eqn:Hf; [|done].
  revert Hf. induction Hc as [|[c h'] rest Hh _ IH]; simpl; [done|].
  destruct (issubclass e c); [|done]. intros [= ->]. apply Hh.
Qed.

(** A final [except Exception] clause that returns turns containment
    into returning. *)
Lemma try_except_Exception_returns {A} (m : IO A) (h : IO A) w :
  contained m w → returns h w → returns (try_except m [(Exception, h)]) w.
Proof.
  intros Hm Hh tr. unfold try_except. specialize (Hm tr).
  destruct (m w tr) as [[a|e] tr']; simpl in *; [by eauto|].
  rewrite Hm. apply Hh.
Qed.

Lemma try_finally_returns {A} (m : IO A) fin w :
  returns m w → returns fin w → returns (try_finally m fin) w.
Proof.
  intros Hm Hf tr. unfold try_finally.
  destruct (Hm tr) as (a & tr' & ->). destruct (Hf tr') as ([] & tr'' & ->). eauto.
Qed.

(** ** The phases of one probe *)

Section Phases.
Context (host : pystr) (port : Z) (timeout : Q) (w : world).

Lemma str_encode_contained s : contained (str_encode s) w.
Proof. intros tr. unfold str_encode. by destruct (utf8_encode s). Qed.

Lemma ordinary_failures_fields :
  ordinary_failures w = true →
  raises_only Exception (w_connect w) = true ∧ raises_only Exception (w_write w) = true
  ∧ raises_only Exception (w_drain w) = true ∧ raises_only Exception (w_read w) = true
  ∧ raises_only Exception (w_close w) = true
  ∧ raises_only Exception (w_wait_closed w) = true.
Proof. unfold ordinary_failures. rewrite !andb_true_iff. tauto. Qed.

Lemma read_banner_contained :
  ordinary_failures w = true → contained (read_banner host port) w.
Proof.
  intros (_ & Hwr & Hdr & Hrd & _)%ordinary_failures_fields.
  unfold read_banner. apply bind_contained.
  - destruct (is_http_port port); [|apply returns_contained, ret_returns].
    apply bind_contained; [apply str_encode_contained|intros req].
    apply bind_contained; [by apply perform_contained|intros _].
    by apply perform_contained.
  - intros _. apply bind_contained.
    + apply try_except_contained.
      * apply perform_contained. by destruct (w_read w).
      * constructor; [apply returns_contained, ret_returns | constructor].
    + intros [|b data]; apply returns_contained, ret_returns.
Qed.

Lemma close_writer_returns :
  ordinary_failures w = true → returns close_writer w.
Proof.
  intros (_ & _ & _ & _ & Hcl & Hwc)%ordinary_failures_fields.
  apply try_except_Exception_returns; [|apply ret_returns].
  apply bind_contained; [by apply perform_contained|intros _].
  by apply perform_contained.
Qed.

Lemma connected_phase_returns :
  ordinary_failures w = true → returns (connected_phase host port) w.
Proof.
  intros Hw. apply try_finally_returns; [|by apply close_writer_returns].
  apply try_except_Exception_returns; [by apply read_banner_contained|apply ret_returns].
Qed.

(** The prober after a successful connect. *)
Lemma run_probe_connected :
  w_connect w = Ok tt →
  run_probe host port timeout w =
    match connected_phase host port w [EvConnect host port timeout] with
    | (Ok banner, tr) => (Ok (OPEN, banner), tr)
    | (Raise e, tr) => (Raise e, tr)
    end.
Proof.
  intros Hc. unfold run_probe, probe_port_once, open_connection, perform.
  unfold mbind, IO_bind, bind, try_except at 1. simpl. rewrite Hc. simpl.
  by destruct (connected_phase host port w [EvConnect host port timeout]) as [[b|e] tr].
Qed.

(** The prober after a failed connect: the [except] clauses of lines
    59-66, in order. *)
Lemma run_probe_connect_failed e :
  w_connect w = Raise e →
  run_probe host port timeout w =
    (if issubclass e TimeoutError then Ok (FILTERED, [])
     else if issubclass e ConnectionRefusedError then Ok (CLOSED, [])
     else if issubclass e OSError then Ok (FILTERED, [])
     else if issubclass e Exception then Ok (FILTERED, [])
     else Raise e,
     [EvConnect host port timeout]).
Proof.
  intros Hc. unfold run_probe, probe_port_once, open_connection, perform.
  unfold mbind, IO_bind, bind, try_except at 1. simpl. rewrite Hc. simpl.
  destruct (issubclass e TimeoutError); [done|].
  destruct (issubclass e ConnectionRefusedError); [done|].
  destruct (issubclass e OSError); [done|].
  by destruct (issubclass e Exception).
Qed.
End Phases.

(** With ordinary errors only, the prober returns, whatever was logged
    before. *)
Lemma probe_port_once_returns host port timeout w :
  ordinary_failures w = true → returns (probe_port_once host port timeout) w.
Proof.
  intros Hw tr. unfold probe_port_once, open_connection, perform.
  unfold mbind, IO_bind, bind, try_except at 1. simpl.
  destruct (w_connect w) as [[]|e] eqn:Hc; simpl.
  - destruct (connected_phase_returns host port w Hw (tr ++ [EvConnect host port timeout]))
      as (banner & tr' & ->).
    by exists (OPEN, banner), tr'.
  - apply ordinary_failures_fields in Hw as (He & _). rewrite Hc in He. simpl in He.
    rewrite He. repeat case_match; simplify_eq; simpl; eauto.
Qed.

(** ** The bytes of the request *)

Lemma utf8_encode_cons c s :
  utf8_encode (c :: s)
  = match utf8_encode_char c, utf8_encode s with
    | Some bs, Some rest => Some (bs ++ rest)
    | _, _ => None
    end.
Proof. reflexivity. Qed.

Lemma utf8_encode_app s1 s2 bs1 bs2 :
  utf8_encode s1 = Some bs1 → utf8_encode s2 = Some bs2 →
  utf8_encode (s1 ++ s2) = Some (bs1 ++ bs2).
Proof.
  revert bs1. induction s1 as [|c s1 IH]; intros bs1.
  - intros [= <-] Hs2. exact Hs2.
  - rewrite <- app_comm_cons, !utf8_encode_cons.
    destruct (utf8_encode_char c) as [bc|]; [|done].
    destruct (utf8_encode s1) as [rest|]; [|done]. intros [= <-] Hs2.
    rewrite (IH rest eq_refl Hs2). by rewrite app_assoc.
Qed.

(** The request on the wire: the line [GET / HTTP/1.0], the [Host]
    header with the bytes of the host, and the empty line. *)
Lemma http_request_bytes host host_bytes :
  utf8_encode host = Some host_bytes →
  utf8_encode (http_request host)
  = Some (list_byte_of_string "GET / HTTP/1.0" ++ [x0d; x0a]
          ++ list_byte_of_string "Host: " ++ host_bytes ++ [x0d; x0a; x0d; x0a]).
Proof.
  intros Hhost. unfold http_request.
  apply (utf8_encode_app (lit "GET / HTTP/1.0")); [reflexivity|].
  apply (utf8_encode_app [CR; LF] _ [x0d; x0a]); [reflexivity|].
  apply (utf8_encode_app (lit "Host: ")); [reflexivity|].
  by apply utf8_encode_app.
Qed.

(** ** The log of one probe *)

(** Splits a goal about [run_probe] on every choice of the world. *)
Ltac probe_cases :=
  unfold run_probe, probe_port_once, connected_phase, read_banner, close_writer,
    open_connection, str_encode, writer_write, writer_drain, reader_read, writer_close,
    writer_wait_closed, perform, try_except, try_finally, mbind, IO_bind, bind, mret,
    IO_ret, ret, raise;
  simpl;
  repeat match goal with
    | |- context [match ?o with Ok _ => _ | Raise _ => _ end] =>
        is_var o; destruct o as [?|?]
    | |- context [issubclass UnicodeEncodeError Exception] =>
        change (issubclass UnicodeEncodeError Exception) with true
    | |- context [if issubclass ?e ?c then _ else _] =>
        destruct (issubclass e c) eqn:?
    | |- context [if is_http_port ?p then _ else _] =>
        destruct (is_http_port p) eqn:?
    | |- context [utf8_encode ?s] =>
        destruct (utf8_encode s) eqn:?
    | |- context [take READ_LIMIT ?data] =>
        destruct (take READ_LIMIT data) eqn:?
    | _ => progress simpl
    end.

(** Membership of an event in an explicit log. *)
Ltac log_member H :=
  repeat (apply elem_of_cons in H as [H|H]; [try discriminate H|]);
  try (by apply elem_of_nil in H).

Lemma probe_log_reads host port timeout w n d :
  EvRead n d ∈ (run_probe host port timeout w).2 → n = READ_LIMIT ∧ d = READ_DEADLINE.
Proof.
  destruct w as [c wr dr rd cl wc]. probe_cases.
  all: intros H; log_member H; by injection H as -> ->.
Qed.

Lemma is_http_port_spec port :
  is_http_port port = true ↔ port ∈ [80; 443; 8000; 8080]%Z.
Proof.
  unfold is_http_port, HTTP_PORTS. cbn [existsb].
  rewrite !orb_true_iff, !Z.eqb_eq, !elem_of_cons, elem_of_nil.
  intuition discriminate.
Qed.

Lemma probe_log_no_write host port timeout w data :
  is_http_port port = false → EvWrite data ∉ (run_probe host port timeout w).2.
Proof.
  intros Hp. destruct w as [c wr dr rd cl wc]. probe_cases.
  all: try discriminate.
  all: intros H; log_member H.
Qed.

Lemma probe_log_write_first host port timeout w req :
  w_connect w = Ok tt → utf8_encode (http_request host) = Some req →
  is_http_port port = true →
  ∃ rest, (run_probe host port timeout w).2
          = EvConnect host port timeout :: EvWrite req :: rest
          ∧ ∀ data, EvWrite data ∉ rest.
Proof.
  intros Hc Hreq Hp. destruct w as [c wr dr rd cl wc]. simpl in Hc. subst c.
  probe_cases.
  all: try discriminate.
  all: match goal with H : Some _ = Some _ |- _ => injection H as -> end.
  all: eexists; split; [reflexivity|]; intros data H; log_member H.
Qed.

Lemma probe_log_read_attempted host port timeout w :
  w_connect w = Ok tt →
  is_http_port port = false ∨ (is_Some (utf8_encode (http_request host))
                               ∧ w_write w = Ok tt ∧ w_drain w = Ok tt) →
  EvRead READ_LIMIT READ_DEADLINE ∈ (run_probe host port timeout w).2.
Proof.
  intros Hc Hsend. destruct w as [c wr dr rd cl wc]. simpl in *. subst c.
  destruct Hsend as [Hp|([req Hreq] & -> & ->)]; probe_cases.
  all: try discriminate.
  all: rewrite !elem_of_cons; tauto.
Qed.

(** The banner of a probe whose connect, send and read all succeed. *)
Lemma probe_banner_of_read host port timeout w data :
  ordinary_failures w = true → w_connect w = Ok tt →
  is_http_port port = false ∨ (is_Some (utf8_encode (http_request host))
                               ∧ w_write w = Ok tt ∧ w_drain w = Ok tt) →
  w_read w = Ok data →
  (run_probe host port timeout w).1
  = Ok (OPEN, match take READ_LIMIT data with
              | [] => []
              | _ => banner_of_data (take READ_LIMIT data)
              end).
Proof.
  intros Hw Hc Hsend Hrd. destruct w as [c wr dr rd cl wc]. simpl in *. subst c rd.
  apply ordinary_failures_fields in Hw as (_ & _ & _ & _ & Hcl & Hwc). simpl in *.
  destruct Hsend as [Hp|([req Hreq] & -> & ->)]; probe_cases.
  all: try discriminate.
  all: try reflexivity.
  all: simpl in *; congruence.
Qed.

Lemma probe_read_timeout host port timeout w e :
  ordinary_failures w = true → w_connect w = Ok tt →
  w_read w = Raise e → issubclass e TimeoutError = true →
  (run_probe host port timeout w).1 = Ok (OPEN, []).
Proof.
  intros Hw Hc Hrd He. destruct w as [c wr dr rd cl wc]. simpl in *. subst c rd.
  apply ordinary_failures_fields in Hw as (_ & Hwr & Hdr & _ & Hcl & Hwc). simpl in *.
  probe_cases.
  all: try reflexivity.
  all: simpl in *; congruence.
Qed.

Lemma probe_send_failed host port timeout w :
  ordinary_failures w = true → w_connect w = Ok tt → is_http_port port = true →
  w_write w ≠ Ok tt ∨ w_drain w ≠ Ok tt →
  (run_probe host port timeout w).1 = Ok (OPEN, []).
Proof.
  intros Hw Hc Hp Hsend. destruct w as [c wr dr rd cl wc]. simpl in *. subst c.
  apply ordinary_failures_fields in Hw as (_ & Hwr & Hdr & _ & Hcl & Hwc). simpl in *.
  probe_cases.
  all: try reflexivity.
  all: try (simpl in *; congruence).
  all: repeat match goal with u : unit |- _ => destruct u end; tauto.
Qed.

(** ** The contract of the prober *)

(** C4. The prober never raises to its caller: whatever the host, the
    port and the timeout, and whichever of the connect, the optional
    write and drain, the banner read and the two closing calls fail with
    an error (an instance of [Exception]), [probe_port_once] returns a
    (status, banner) pair. *)
Theorem probe_never_raises host port timeout w :
  ordinary_failures w = true →
  ∃ status banner, (run_probe host port timeout w).1 = Ok (status, banner).
Proof.
  intros Hw. unfold run_probe.
  destruct (probe_port_once_returns host port timeout w Hw []) as ([status banner] & tr & ->).
  by exists status, banner.
Qed.

Lemma probe_never_raises_witness :
  ordinary_failures broken_pipe_world = true
  ∧ ∃ status banner,
      (run_probe example_host 80 (Qmake 2 1) broken_pipe_world).1 = Ok (status, banner).
Proof. split; [reflexivity|]. apply probe_never_raises. reflexivity. Defined.

(** Only an interruption that is not an [Exception] leaves the prober. *)
Lemma probe_cancellation_propagates host port timeout :
  (run_probe host port timeout (failing_world CancelledError)).1 = Raise CancelledError.
Proof. reflexivity. Qed.

(** C2. Whenever the prober returns, the status is one of OPEN, CLOSED
    and FILTERED, and the banner is non-empty only when the status is
    OPEN. *)
Theorem probe_status_and_banner host port timeout w status banner :
  (run_probe host port timeout w).1 = Ok (status, banner) →
  status ∈ [OPEN; CLOSED; FILTERED] ∧ (banner ≠ [] → status = OPEN).
Proof.
  destruct (w_connect w) as [[]|e] eqn:Hc.
  - rewrite run_probe_connected by done.
    destruct (connected_phase host port w _) as [[b|e] tr]; simpl; [|done].
    intros [= <- <-]. split; [set_solver|done].
  - rewrite (run_probe_connect_failed _ _ _ _ e) by done. simpl.
    repeat case_match; intros [= <- <-]; (split; [set_solver|done]).
Qed.

Lemma probe_status_and_banner_witness :
  OPEN ∈ [OPEN; CLOSED; FILTERED]
  ∧ (lit "HTTP/1.1 200 OK  Server: X" ≠ [] → OPEN = OPEN).
Proof.
  apply (probe_status_and_banner example_host 80 (Qmake 2 1)
           (accepting_world (Ok scenario_b_data))).
  reflexivity.
Defined.

(** C3. The status is decided by the outcome of the connect alone: a
    connect timeout gives FILTERED with an empty banner, a refused
    connection gives CLOSED with an empty banner, any other OS or network
    error of the connect, and any other error at all, gives FILTERED
    with an empty banner, and a successful connect
    gives the status OPEN whatever happens to the write, the read and the
    close afterwards. *)
Theorem status_decided_by_connect host port timeout w :
  (∀ e, w_connect w = Raise e → issubclass e TimeoutError = true →
        (run_probe host port timeout w).1 = Ok (FILTERED, []))
  ∧ (∀ e, w_connect w = Raise e → issubclass e ConnectionRefusedError = true →
          (run_probe host port timeout w).1 = Ok (CLOSED, []))
  ∧ (∀ e, w_connect w = Raise e → issubclass e OSError = true →
          issubclass e ConnectionRefusedError = false →
          (run_probe host port timeout w).1 = Ok (FILTERED, []))
  ∧ (∀ e, w_connect w = Raise e → issubclass e Exception = true →
          issubclass e ConnectionRefusedError = false →
          (run_probe host port timeout w).1 = Ok (FILTERED, []))
  ∧ (w_connect w = Ok tt → ordinary_failures w = true →
     ∃ banner, (run_probe host port timeout w).1 = Ok (OPEN, banner))
  ∧ (∀ host' port' timeout' w' status banner status' banner',
       w_connect w' = w_connect w →
       (run_probe host port timeout w).1 = Ok (status, banner) →
       (run_probe host' port' timeout' w').1 = Ok (status', banner') →
       status' = status).
Proof.
  repeat split.
  - intros e Hc He. rewrite (run_probe_connect_failed _ _ _ _ e) by done. by rewrite He.
  - intros e Hc He. rewrite (run_probe_connect_failed _ _ _ _ e) by done.
    by rewrite (refused_not_timeout e He), He.
  - intros e Hc He Hr. rewrite (run_probe_connect_failed _ _ _ _ e) by done.
    rewrite Hr, He. by destruct (issubclass e TimeoutError).
  - intros e Hc He Hr. rewrite (run_probe_connect_failed _ _ _ _ e) by done.
    rewrite Hr, He. by repeat case_match.
  - intros Hc Hw. rewrite run_probe_connected by done.
    destruct (connected_phase_returns host port w Hw [EvConnect host port timeout])
      as (banner & tr & ->).
    by exists banner.
  - intros host' port' timeout' w' status banner status' banner' Hc'.
    destruct (w_connect w) as [[]|e] eqn:Hc.
    + rewrite !run_probe_connected by done.
      destruct (connected_phase host port w _) as [[b|e] tr]; [|done].
      destruct (connected_phase host' port' w' _) as [[b'|e'] tr']; [|done].
      simpl. congruence.
    + rewrite (run_probe_connect_failed _ _ _ w e),
        (run_probe_connect_failed _ _ _ w' e) by done.
      simpl. repeat case_match; congruence.
Qed.

Lemma status_decided_by_connect_witness :
  (run_probe example_host 9999 (Qmake 1 2) (failing_world TimeoutError)).1
    = Ok (FILTERED, [])
  ∧ (run_probe example_host 21 (Qmake 2 1) (failing_world ConnectionRefusedError)).1
    = Ok (CLOSED, [])
  ∧ ∃ banner, (run_probe example_host 80 (Qmake 2 1) broken_pipe_world).1
              = Ok (OPEN, banner).
Proof.
  split; [|split].
  - by apply (status_decided_by_connect example_host 9999 (Qmake 1 2)
                (failing_world TimeoutError)) with TimeoutError.
  - by apply (status_decided_by_connect example_host 21 (Qmake 2 1)
                (failing_world ConnectionRefusedError)) with ConnectionRefusedError.
  - by apply (status_decided_by_connect example_host 80 (Qmake 2 1) broken_pipe_world).
Defined.

(** C6. After a successful connect the banner is read with
    [reader.read(4096)] under a deadline of 0.9, whatever the connect
    timeout: every read of the log asks for at most 4096 bytes with that
    deadline, the banner is made of at most the first 4096 bytes
    delivered, and when the read deadline expires the prober returns OPEN
    with an empty banner. *)
Theorem banner_read_bounded host port timeout w :
  (∀ n d, EvRead n d ∈ (run_probe host port timeout w).2 →
          n = 4096%nat ∧ d = Qmake 9 10)
  ∧ (w_connect w = Ok tt →
     is_http_port port = false
     ∨ (is_Some (utf8_encode (http_request host)) ∧ w_write w = Ok tt ∧ w_drain w = Ok tt) →
     EvRead 4096 (Qmake 9 10) ∈ (run_probe host port timeout w).2)
  ∧ (∀ data, ordinary_failures w = true → w_connect w = Ok tt →
       is_http_port port = false
       ∨ (is_Some (utf8_encode (http_request host))
          ∧ w_write w = Ok tt ∧ w_drain w = Ok tt) →
       w_read w = Ok data →
       (run_probe host port timeout w).1
       = Ok (OPEN, match take 4096 data with
                   | [] => []
                   | _ => banner_of_data (take 4096 data)
                   end))
  ∧ (∀ e, ordinary_failures w = true → w_connect w = Ok tt →
       w_read w = Raise e → issubclass e TimeoutError = true →
       (run_probe host port timeout w).1 = Ok (OPEN, [])).
Proof.
  split; [|split; [|split]].
  - apply probe_log_reads.
  - apply probe_log_read_attempted.
  - intros data. apply probe_banner_of_read.
  - intros e. apply probe_read_timeout.
Qed.

Lemma banner_read_bounded_witness :
  (run_probe example_host 22 (Qmake 5 1) silent_world).1 = Ok (OPEN, [])
  ∧ EvRead 4096 (Qmake 9 10) ∈ (run_probe example_host 22 (Qmake 5 1) silent_world).2.
Proof.
  split.
  - by apply (banner_read_bounded example_host 22 (Qmake 5 1) silent_world)
      with TimeoutError.
  - apply (banner_read_bounded example_host 22 (Qmake 5 1) silent_world);
      [reflexivity|by left].
Defined.

(** C7. Once connected, the request is written exactly when the port is
    one of 80, 443, 8000 and 8080. What is written is then the bytes of
    the line [GET / HTTP/1.0], of the header [Host:] with the host, and
    of the empty line that ends the request, each closed by CR LF; it is
    the first operation after the connect, before the banner read, and
    nothing else is ever written. A failure of the write or of the drain
    is swallowed and the prober still returns OPEN. *)
Theorem http_request_sent_iff_http_port host port timeout w host_bytes :
  w_connect w = Ok tt → utf8_encode host = Some host_bytes →
  ((∃ data, EvWrite data ∈ (run_probe host port timeout w).2)
   ↔ port ∈ [80; 443; 8000; 8080]%Z)
  ∧ (port ∈ [80; 443; 8000; 8080]%Z →
     ∃ rest, (run_probe host port timeout w).2
             = EvConnect host port timeout
               :: EvWrite (list_byte_of_string "GET / HTTP/1.0" ++ [x0d; x0a]
                           ++ list_byte_of_string "Host: " ++ host_bytes
                           ++ [x0d; x0a; x0d; x0a])
               :: rest
             ∧ ∀ data, EvWrite data ∉ rest)
  ∧ (ordinary_failures w = true → port ∈ [80; 443; 8000; 8080]%Z →
     w_write w ≠ Ok tt ∨ w_drain w ≠ Ok tt →
     (run_probe host port timeout w).1 = Ok (OPEN, [])).
Proof.
  intros Hc Hreq%http_request_bytes. rewrite <- is_http_port_spec. split; [|split].
  - split.
    + intros [data Hin]. destruct (is_http_port port) eqn:Hp; [done|].
      by apply probe_log_no_write in Hin.
    + intros Hp.
      destruct (probe_log_write_first host port timeout w _ Hc Hreq Hp) as (rest & -> & _).
      eexists. apply list_elem_of_further, list_elem_of_here.
  - by apply probe_log_write_first.
  - intros Hw Hp Hsend. by apply probe_send_failed.
Qed.

Lemma http_request_sent_iff_http_port_witness :
  (∃ rest, (run_probe example_host 8080 (Qmake 2 1) broken_pipe_world).2
           = EvConnect example_host 8080 (Qmake 2 1)
             :: EvWrite (list_byte_of_string "GET / HTTP/1.0" ++ [x0d; x0a]
                         ++ list_byte_of_string "Host: example.org"
                         ++ [x0d; x0a; x0d; x0a])
             :: rest
           ∧ ∀ data, EvWrite data ∉ rest)
  ∧ (run_probe example_host 8080 (Qmake 2 1) broken_pipe_world).1 = Ok (OPEN, []).
Proof.
  pose proof (http_request_sent_iff_http_port example_host 8080 (Qmake 2 1)
                broken_pipe_world (list_byte_of_string "example.org") eq_refl eq_refl)
    as (_ & Hfirst & Hopen).
  split.
  - apply Hfirst. by apply is_http_port_spec.
  - apply Hopen; [reflexivity|by apply is_http_port_spec|by left].
Defined.

(** ** The text of the banner *)

Local Open Scope N_scope.

Lemma py_lstrip_head s :
  match py_lstrip s with [] => True | c :: _ => py_isspace c = false end.
Proof.
  induction s as [|c s IH]; simpl; [done|].
  destruct (py_isspace c) eqn:Hc; [done|by rewrite Hc].
Qed.

Lemma py_lstrip_fixed c s : py_isspace c = false → py_lstrip (c :: s) = c :: s.
Proof. intros Hc. simpl. by rewrite Hc. Qed.

Lemma py_lstrip_snoc s c :
  py_isspace c = false → py_lstrip (s ++ [c]) = py_lstrip s ++ [c].
Proof.
  intros Hc. induction s as [|x s IH]; simpl; [by rewrite Hc|].
  by destruct (py_isspace x).
Qed.

Lemma py_rstrip_cons c s : py_isspace c = false → py_rstrip (c :: s) = c :: py_rstrip s.
Proof.
  intros Hc. unfold py_rstrip. simpl. rewrite py_lstrip_snoc by done.
  by rewrite rev_app_distr.
Qed.

Lemma py_rstrip_last s :
  match rev (py_rstrip s) with [] => True | c :: _ => py_isspace c = false end.
Proof. unfold py_rstrip. rewrite rev_involutive. apply py_lstrip_head. Qed.

(** [strip] leaves nothing to strip. *)
Lemma py_strip_idemp s : py_strip (py_strip s) = py_strip s.
Proof.
  unfold py_strip. pose proof (py_lstrip_head s) as Hhead.
  destruct (py_lstrip s) as [|c t] eqn:Hs; [done|].
  rewrite py_rstrip_cons by done. rewrite py_lstrip_fixed by done.
  rewrite py_rstrip_cons by done. f_equal.
  unfold py_rstrip. rewrite rev_involutive.
  pose proof (py_lstrip_head (rev t)) as Hlast.
  destruct (py_lstrip (rev t)) as [|d u] eqn:Ht; [done|].
  by rewrite py_lstrip_fixed.
Qed.

(** Replacing one white-space character by another commutes with
    [strip]. *)
Lemma py_lstrip_replace old new s :
  py_isspace old = true → py_isspace new = true →
  py_lstrip (py_replace old new s) = py_replace old new (py_lstrip s).
Proof.
  intros Ho Hn. induction s as [|c s IH]; simpl; [done|].
  destruct (N.eqb_spec c old) as [->|Hne].
  - by rewrite Ho, Hn.
  - destruct (py_isspace c) eqn:Hc; [done|]. simpl.
    destruct (N.eqb_spec c old); done.
Qed.

Lemma py_strip_replace old new s :
  py_isspace old = true → py_isspace new = true →
  py_strip (py_replace old new s) = py_replace old new (py_strip s).
Proof.
  intros Ho Hn. unfold py_strip, py_rstrip.
  rewrite py_lstrip_replace by done. unfold py_replace at 1.
  rewrite <- map_rev. fold (py_replace old new (rev (py_lstrip s))).
  rewrite py_lstrip_replace by done. unfold py_replace. by rewrite map_rev.
Qed.

Lemma py_replace_lookup old new s i :
  py_replace old new s !! i = (λ c, if c =? old then new else c) <$> s !! i.
Proof. unfold py_replace. apply list_lookup_fmap. Qed.

(** Bytes below 0x80 decode to themselves. *)
Lemma utf8_decode_ascii data :
  Forall (λ b, Byte.to_N b < 0x80) data → utf8_decode_replace data = map Byte.to_N data.
Proof.
  unfold utf8_decode_replace. induction 1 as [|b data Hb _ IH]; simpl; [done|].
  unfold utf8_lead. apply N.ltb_lt in Hb. rewrite Hb. simpl. by rewrite IH.
Qed.

(** C5, as the code has it. The banner is the received bytes decoded
    with U+FFFD in place of what does not decode, trimmed of its
    surrounding white space, with every remaining carriage return and
    every remaining line feed replaced by one space each: the text keeps
    its length, so a CR LF pair becomes two spaces, and the result has
    nothing left to trim. For the bytes
    "HTTP/1.1 200 OK\r\nServer: X\r\n\r\n" received on port 80 the banner
    is "HTTP/1.1 200 OK  Server: X", with two spaces. *)
Theorem banner_text data :
  let text := py_strip (utf8_decode_replace data) in
  length (banner_of_data data) = length text
  ∧ (∀ i c, text !! i = Some c →
       banner_of_data data !! i = Some (if bool_decide (c = CR ∨ c = LF) then SPACE else c))
  ∧ py_strip (banner_of_data data) = banner_of_data data
  ∧ utf8_decode_replace [x41; xff; x42] = [0x41; 0xFFFD; 0x42]
  ∧ (run_probe example_host 80 (Qmake 2 1) (accepting_world (Ok scenario_b_data))).1
    = Ok (OPEN, lit "HTTP/1.1 200 OK  Server: X").
Proof.
  intros text. unfold banner_of_data. fold text.
  split; [|split; [|split; [|split; reflexivity]]].
  - unfold py_replace. by rewrite !length_map.
  - intros i c Hi. rewrite !py_replace_lookup, Hi. simpl. f_equal.
    unfold CR, LF, SPACE. destruct (N.eqb_spec c 13) as [->|Hcr]; [done|].
    destruct (N.eqb_spec c 10) as [->|Hlf]; [done|].
    rewrite bool_decide_eq_false_2; [done|]. intros [?|?]; done.
  - rewrite !py_strip_replace by done. unfold text. by rewrite py_strip_idemp.
Qed.

Lemma banner_text_witness :
  py_strip (utf8_decode_replace scenario_b_data) !! 15%nat = Some CR
  ∧ banner_of_data scenario_b_data !! 15%nat = Some SPACE
  ∧ banner_of_data scenario_b_data !! 16%nat = Some SPACE.
Proof.
  destruct (banner_text scenario_b_data) as (_ & Hchar & _).
  split; [reflexivity|]. split.
  - by apply (Hchar 15%nat CR).
  - by apply (Hchar 16%nat LF).
Defined.

(** C5, as the specification has it, fails: the banner of the
    scenario is not "HTTP/1.1 200 OK Server: X". *)
Lemma banner_scenario_b_not_single_spaced :
  (run_probe example_host 80 (Qmake 2 1) (accepting_world (Ok scenario_b_data))).1
  ≠ Ok (OPEN, lit "HTTP/1.1 200 OK Server: X").
Proof. discriminate. Qed.

Local Close Scope N_scope.

(** * Properties of the engine *)

(** ** Updating one element of a list *)

Lemma insert_middle {A} (l : list A) i x y :
  l !! i = Some x →
  ∃ l1 l2, l = l1 ++ x :: l2 ∧ <[i:=y]> l = l1 ++ y :: l2 ∧ length l1 = i.
Proof.
  intros Hi. exists (take i l), (drop (S i) l).
  pose proof (lookup_lt_Some _ _ _ Hi) as Hlt.
  split; [by rewrite take_drop_middle|].
  split; [by apply insert_take_drop|]. rewrite length_take. lia.
Qed.

Lemma sum_list_with_insert {A} (f : A → nat) (l : list A) i x y :
  l !! i = Some x →
  sum_list_with f (<[i:=y]> l) + f x = sum_list_with f l + f y.
Proof.
  intros (l1 & l2 & -> & -> & _)%(insert_middle _ _ _ y).
  rewrite !sum_list_with_app. simpl. lia.
Qed.

Lemma filter_insert_length {A} (P : A → Prop) `{!∀ x, Decision (P x)} (l : list A) i x y :
  l !! i = Some x →
  length (filter P (<[i:=y]> l)) + (if decide (P x) then 1 else 0)
  = length (filter P l) + (if decide (P y) then 1 else 0).
Proof.
  intros (l1 & l2 & -> & -> & _)%(insert_middle _ _ _ y).
  rewrite !filter_app, !filter_cons, !length_app.
  repeat case_decide; simpl; lia.
Qed.

Lemma filter_insert_out {A} (P : A → Prop) `{!∀ x, Decision (P x)} (l : list A) i x y :
  l !! i = Some x → ¬ P x → ¬ P y → filter P (<[i:=y]> l) = filter P l.
Proof.
  intros (l1 & l2 & -> & -> & _)%(insert_middle _ _ _ y) Hx Hy.
  rewrite !filter_app, !filter_cons. by rewrite !decide_False.
Qed.

Lemma filter_insert_in {A B} (P : A → Prop) `{!∀ x, Decision (P x)} (f : A → B)
    (l : list A) i x y :
  l !! i = Some x → ¬ P x → P y → f <$> filter P (<[i:=y]> l) ≡ₚ f y :: (f <$> filter P l).
Proof.
  intros (l1 & l2 & -> & -> & _)%(insert_middle _ _ _ y) Hx Hy.
  rewrite !filter_app, !filter_cons.
  rewrite (decide_False (P:=P x)), (decide_True (P:=P y)) by done.
  rewrite !fmap_app, fmap_cons. by rewrite Permutation_middle.
Qed.

Lemma filter_none {A} (P : A → Prop) `{!∀ x, Decision (P x)} (l : list A) :
  Forall (λ x, ¬ P x) l → filter P l = [].
Proof.
  induction 1 as [|x l Hx _ IH]; [done|]. by rewrite filter_cons, decide_False.
Qed.

Lemma Forall_insert_same {A} (P : A → Prop) (l : list A) i x y :
  l !! i = Some x → P x → P y → Forall P (<[i:=y]> l) ↔ Forall P l.
Proof.
  intros Hi Hx Hy. split; intros H; [|by apply Forall_insert].
  rewrite <- (list_insert_id l i x Hi), <- (list_insert_insert_eq l i x y).
  by apply Forall_insert.
Qed.

Lemma forallb_Forall {A} (f : A → bool) (l : list A) :
  forallb f l = true ↔ Forall (λ x, f x = true) l.
Proof.
  induction l as [|x l IH]; simpl; [by split|].
  rewrite andb_true_iff, Forall_cons. by rewrite IH.
Qed.

Lemma filter_all {A} (P : A → Prop) `{!∀ x, Decision (P x)} (l : list A) :
  Forall P l → filter P l = l.
Proof.
  induction 1 as [|x l Hx _ IH]; [done|]. by rewrite filter_cons, decide_True, IH.
Qed.

(** ** The invariant of the scan *)

Section Engine.
Context (host : pystr) (ports : list Z) (concurrency : Z) (timeout : Q).
Context (env : nat → world).

Abbreviation inv := (scan_inv host ports concurrency timeout env).
Abbreviation init := (scan_init ports concurrency env).

Lemma create_tasks_lookup i :
  create_tasks ports env !! i
  = (λ p, {| t_port := p; t_world := env i; t_state := Waiting |}) <$> ports !! i.
Proof. unfold create_tasks. apply list_lookup_imap. Qed.

Lemma create_tasks_waiting :
  Forall (λ t, t_state t = Waiting) (create_tasks ports env).
Proof.
  apply Forall_lookup. intros i t. rewrite create_tasks_lookup.
  destruct (ports !! i); simpl; [|done]. by intros [= <-].
Qed.

Lemma create_tasks_ports : t_port <$> create_tasks ports env = ports.
Proof.
  apply list_eq. intros i. rewrite list_lookup_fmap, create_tasks_lookup.
  by destruct (ports !! i).
Qed.

Lemma init_inv : (0 ≤ concurrency)%Z → inv init.
Proof.
  intros Hc. pose proof create_tasks_waiting as Hw.
  assert (filter (λ t, is_probing t = true) (create_tasks ports env) = []) as Hrun.
  { apply filter_none. eapply Forall_impl; [exact Hw|].
    intros t Ht. unfold is_probing. by rewrite Ht. }
  assert (filter (λ t, is_finished t = true) (create_tasks ports env) = []) as Hfin.
  { apply filter_none. eapply Forall_impl; [exact Hw|].
    intros t Ht. unfold is_finished. by rewrite Ht. }
  split; simpl.
  - apply create_tasks_ports.
  - intros i t. rewrite create_tasks_lookup. destruct (ports !! i); simpl; [|done].
    by intros [= <-].
  - unfold running. simpl. rewrite Hrun. simpl. lia.
  - done.
  - done.
  - by rewrite Hfin.
  - done.
  - intros p r Hin. by apply elem_of_nil in Hin.
  - split; [|done]. intros _. eapply Forall_impl; [exact Hw|].
    intros t Ht e. by rewrite Ht.
Qed.

Lemma tasks_port_lookup s i t :
  inv s → tasks s !! i = Some t → ports !! i = Some (t_port t).
Proof.
  intros Hinv Hi. rewrite <- (inv_ports _ _ _ _ _ _ Hinv), list_lookup_fmap. by rewrite Hi.
Qed.

(** The parts of the invariant that only look at ports and worlds. *)
Lemma set_state_ports s i t st :
  tasks s !! i = Some t → t_port <$> <[i:=set_state st t]> (tasks s) = t_port <$> tasks s.
Proof.
  intros Hi. rewrite list_fmap_insert. apply list_insert_id.
  rewrite list_lookup_fmap. by rewrite Hi.
Qed.

Lemma set_state_worlds s i t st :
  inv s → tasks s !! i = Some t →
  ∀ j u, <[i:=set_state st t]> (tasks s) !! j = Some u → t_world u = env j.
Proof.
  intros Hinv Hi j u. destruct (decide (i = j)) as [<-|Hne].
  - rewrite list_lookup_insert_eq by (by eapply lookup_lt_Some).
    intros [= <-]. simpl. by eapply inv_worlds.
  - rewrite list_lookup_insert_ne by done. by eapply inv_worlds.
Qed.

Lemma finished_unchanged s i t st :
  tasks s !! i = Some t → t_state t ≠ Finished → st ≠ Finished →
  filter (λ t, is_finished t = true) (<[i:=set_state st t]> (tasks s))
  = filter (λ t, is_finished t = true) (tasks s).
Proof.
  intros Hi Ht Hst. apply (filter_insert_out _ _ i t); [done|..]; unfold is_finished.
  - by destruct (t_state t).
  - simpl. by destruct st.
Qed.

Lemma worker_enter_inv s i t s' :
  inv s → tasks s !! i = Some t → t_state t = Waiting →
  worker_enter i t s = Some s' → inv s'.
Proof.
  intros Hinv Hi Hst. unfold worker_enter. destruct (Z.ltb_spec 0 (sem_value s)); [|done].
  intros [= <-]. destruct Hinv as [Hp Hw Hperm Hnn Hres Hwr Hpr Hwn Hra].
  assert (inv s) as Hinv by done.
  split; simpl.
  - by rewrite set_state_ports.
  - by apply set_state_worlds.
  - unfold running in *. simpl.
    pose proof (filter_insert_length (λ t, is_probing t = true) _ i t
                  (set_state Probing t) Hi) as Hlen.
    rewrite decide_False, decide_True in Hlen;
      [lia|done|unfold is_probing; by rewrite Hst].
  - lia.
  - done.
  - rewrite (finished_unchanged s i t) by (done || by rewrite Hst). done.
  - done.
  - done.
  - rewrite Hra. symmetry. apply (Forall_insert_same _ _ i t); [done| |done].
    intros e. by rewrite Hst.
Qed.

Lemma worker_leave_inv s i t :
  inv s → tasks s !! i = Some t → t_state t = Probing →
  inv (worker_leave host timeout i t s).
Proof.
  intros Hinv Hi Hst. unfold worker_leave.
  destruct Hinv as [Hp Hw Hperm Hnn Hres Hwr Hpr Hwn Hra].
  assert (inv s) as Hinv by done.
  assert (∀ st, st ≠ Probing →
            length (filter (λ t, is_probing t = true) (tasks s))
            = S (length (filter (λ t, is_probing t = true)
                           (<[i:=set_state st t]> (tasks s))))) as Hrun.
  { intros st Hne.
    pose proof (filter_insert_length (λ t, is_probing t = true) _ i t
                  (set_state st t) Hi) as Hlen.
    rewrite decide_True, decide_False in Hlen;
      [lia|unfold is_probing; simpl; by destruct st|unfold is_probing; by rewrite Hst]. }
  destruct (run_probe host (t_port t) timeout (t_world t)).1 as [r|e] eqn:Hr.
  - split; simpl.
    + by rewrite set_state_ports.
    + by apply set_state_worlds.
    + unfold running in *. simpl. rewrite (Hrun Finished) in Hperm by done. lia.
    + lia.
    + by rewrite reverse_snoc, Hres.
    + rewrite fmap_app. simpl. rewrite <- Permutation_cons_append.
      rewrite (filter_insert_in _ t_port _ i t); [by rewrite Hwr|done| |done].
      unfold is_finished. by rewrite Hst.
    + rewrite length_app. simpl. lia.
    + intros p r' [Hin|Hin%list_elem_of_singleton]%elem_of_app; [by apply Hwn|].
      injection Hin as -> ->. exists i. split; [by eapply tasks_port_lookup|].
      by rewrite <- (Hw i t Hi).
    + rewrite Hra. symmetry. apply (Forall_insert_same _ _ i t); [done| |done].
      intros e. by rewrite Hst.
  - split; simpl.
    + by rewrite set_state_ports.
    + by apply set_state_worlds.
    + unfold running in *. simpl. rewrite (Hrun (Failed e)) in Hperm by done. lia.
    + lia.
    + done.
    + rewrite (finished_unchanged s i t) by (done || by rewrite Hst). done.
    + done.
    + done.
    + split; [by destruct (raised s)|]. intros Hall. exfalso.
      rewrite Forall_lookup in Hall.
      apply (Hall i (set_state (Failed e) t)) with e; [|done].
      apply list_lookup_insert_eq. by eapply lookup_lt_Some.
Qed.

Lemma step_inv s i s' : inv s → step host timeout i s = Some s' → inv s'.
Proof.
  intros Hinv. unfold step. destruct (tasks s !! i) as [t|] eqn:Hi; [|done].
  destruct (t_state t) eqn:Hst; [|intros [= <-]|done..].
  - by apply worker_enter_inv.
  - by apply worker_leave_inv.
Qed.

Lemma exec_inv sched s s' : inv s → exec host timeout sched s = Some s' → inv s'.
Proof.
  revert s. induction sched as [|i sched IH]; intros s Hinv; simpl.
  - by intros [= <-].
  - destruct (step host timeout i s) as [s1|] eqn:Hstep; [|done].
    apply IH. by eapply step_inv.
Qed.

Lemma reachable_inv s :
  (0 ≤ concurrency)%Z → reachable host ports concurrency timeout env s → inv s.
Proof. intros Hc [sched Hs]. eapply exec_inv; [by apply init_inv|done]. Qed.

(** *** The state in which [gather] returns *)

Lemma scan_final s :
  inv s → gather s = Some (Ok tt) →
  (writes s).*1 ≡ₚ ports ∧ dom (results s) = list_to_set ports.
Proof.
  intros Hinv. unfold gather. destruct (raised s); [done|].
  destruct (forallb is_finished (tasks s)) eqn:Hfin; [|done]. intros _.
  apply forallb_Forall in Hfin.
  assert ((writes s).*1 ≡ₚ ports) as Hperm.
  { rewrite (inv_writes _ _ _ _ _ _ Hinv), filter_all by done.
    by rewrite (inv_ports _ _ _ _ _ _ Hinv). }
  split; [done|].
  rewrite (inv_results _ _ _ _ _ _ Hinv), dom_list_to_map_L, fmap_reverse.
  by rewrite reverse_Permutation, Hperm.
Qed.

(** The entry of a port is the value stored last under it. *)
Lemma last_write_wins s ws1 p v ws2 :
  inv s → writes s = ws1 ++ (p, v) :: ws2 → p ∉ ws2.*1 → results s !! p = Some v.
Proof.
  intros Hinv Hws Hlast. rewrite (inv_results _ _ _ _ _ _ Hinv), Hws.
  rewrite reverse_app, reverse_cons, <- app_assoc. simpl.
  rewrite list_to_map_app, lookup_union_r.
  - apply lookup_insert_eq.
  - apply not_elem_of_list_to_map_1. by rewrite fmap_reverse, elem_of_reverse.
Qed.

(** *** Every step uses up potential *)

Lemma step_potential s i s' :
  step host timeout i s = Some s' → potential s = S (potential s').
Proof.
  unfold step. destruct (tasks s !! i) as [t|] eqn:Hi; [|done].
  destruct (t_state t) eqn:Hst; [| |done..].
  - unfold worker_enter. case_match; [|done]. intros [= <-]. unfold potential. simpl.
    pose proof (sum_list_with_insert weight _ i t (set_state Probing t) Hi) as Hsum.
    unfold weight in Hsum at 2 4. simpl in Hsum. rewrite Hst in Hsum. lia.
  - intros [= <-]. unfold worker_leave, potential.
    destruct (run_probe host (t_port t) timeout (t_world t)).1 as [r|e]; simpl.
    + pose proof (sum_list_with_insert weight _ i t (set_state Finished t) Hi) as Hsum.
      unfold weight in Hsum at 2 4. simpl in Hsum. rewrite Hst in Hsum. lia.
    + pose proof (sum_list_with_insert weight _ i t (set_state (Failed e) t) Hi) as Hsum.
      unfold weight in Hsum at 2 4. simpl in Hsum. rewrite Hst in Hsum. lia.
Qed.

Lemma exec_potential sched s s' :
  exec host timeout sched s = Some s' → potential s = length sched + potential s'.
Proof.
  revert s. induction sched as [|i sched IH]; intros s; simpl.
  - by intros [= <-].
  - destruct (step host timeout i s) as [s1|] eqn:Hstep; [|done].
    intros Hs'. apply step_potential in Hstep. apply IH in Hs'. lia.
Qed.

Lemma init_potential : potential init = 2 * length ports.
Proof.
  unfold potential. simpl.
  assert (∀ l, Forall (λ t, t_state t = Waiting) l → sum_list_with weight l = 2 * length l)
    as Hsum.
  { induction 1 as [|t l Ht _ IH]; simpl; [done|]. unfold weight at 1. rewrite Ht. lia. }
  rewrite Hsum by apply create_tasks_waiting.
  unfold create_tasks. by rewrite length_imap.
Qed.

(** A run of the event loop takes at most two steps per task. *)
Lemma exec_bounded sched s :
  exec host timeout sched init = Some s → length sched ≤ 2 * length ports.
Proof. intros Hs%exec_potential. rewrite init_potential in Hs. lia. Qed.

(** *** No worker fails when the probes meet ordinary errors only *)

Hypothesis env_ordinary : ∀ i, ordinary_failures (env i) = true.

Lemma step_raised s i s' :
  inv s → raised s = None → step host timeout i s = Some s' → raised s' = None.
Proof.
  intros Hinv Hra. unfold step. destruct (tasks s !! i) as [t|] eqn:Hi; [|done].
  destruct (t_state t) eqn:Hst; [| |done..].
  - unfold worker_enter. case_match; [|done]. by intros [= <-].
  - intros [= <-]. unfold worker_leave.
    assert (ordinary_failures (t_world t) = true) as Hw.
    { rewrite (inv_worlds _ _ _ _ _ _ Hinv i t Hi). apply env_ordinary. }
    unfold run_probe.
    by destruct (probe_port_once_returns host (t_port t) timeout (t_world t) Hw [])
      as (r & tr & ->).
Qed.

Lemma exec_raised sched s s' :
  inv s → raised s = None → exec host timeout sched s = Some s' → raised s' = None.
Proof.
  revert s. induction sched as [|i sched IH]; intros s Hinv Hra; simpl.
  - by intros [= <-].
  - destruct (step host timeout i s) as [s1|] eqn:Hstep; [|done].
    apply IH; [by eapply step_inv|by eapply step_raised].
Qed.

(** *** No deadlock *)

Lemma step_possible s :
  (0 < concurrency)%Z → inv s → gather s = None →
  ∃ i s', step host timeout i s = Some s'.
Proof.
  intros Hc Hinv. unfold gather. destruct (raised s) eqn:Hra; [done|].
  destruct (forallb is_finished (tasks s)) eqn:Hfin; [done|]. intros _.
  apply (inv_raised _ _ _ _ _ _ Hinv) in Hra.
  destruct (decide (Exists (λ t, is_probing t = true) (tasks s))) as [Hex|Hno].
  - apply Exists_exists in Hex as (t & [i Hi]%list_elem_of_lookup & Ht).
    exists i. unfold step. rewrite Hi. unfold is_probing in Ht.
    destruct (t_state t); try done. eauto.
  - apply not_Exists_Forall in Hno; [|apply _].
    assert (running s = 0) as Hrun.
    { unfold running. by rewrite filter_none. }
    pose proof (inv_permits _ _ _ _ _ _ Hinv) as Hperm. rewrite Hrun in Hperm.
    assert (¬ Forall (λ t, is_finished t = true) (tasks s)) as Hnf.
    { intros Hall%forallb_Forall. by rewrite Hfin in Hall. }
    apply not_Forall_Exists in Hnf; [|apply _].
    apply Exists_exists in Hnf as (t & Hin & Ht).
    pose proof Hin as [i Hi]%list_elem_of_lookup.
    rewrite Forall_forall in Hno, Hra.
    specialize (Hno t Hin). specialize (Hra t Hin). simpl in *.
    exists i. unfold step. rewrite Hi.
    unfold is_finished in Ht. unfold is_probing in Hno. unfold never_failed in Hra.
    destruct (t_state t) eqn:Hst; try done.
    + unfold worker_enter. destruct (Z.ltb_spec 0 (sem_value s)); [eauto|lia].
    + by destruct (Hra e).
Qed.
End Engine.

(** ** Runs of [run_scan] *)

Lemma exec_app host timeout sched1 sched2 s :
  exec host timeout (sched1 ++ sched2) s
  = exec host timeout sched1 s ≫= exec host timeout sched2.
Proof.
  revert s. induction sched1 as [|i sched1 IH]; intros s; simpl; [done|].
  by destruct (step host timeout i s).
Qed.

(** From every state of a scan the event loop can go on until [gather]
    is over. *)
Lemma exec_completes host ports concurrency timeout env s :
  (0 < concurrency)%Z → scan_inv host ports concurrency timeout env s →
  ∃ sched s', exec host timeout sched s = Some s' ∧ gather s' ≠ None.
Proof.
  intros Hc. remember (potential s) as n eqn:Hn. revert s Hn.
  induction n as [|n IH]; intros s Hn Hinv.
  - destruct (gather s) eqn:Hg; [by exists [], s; rewrite Hg|].
    destruct (step_possible _ _ _ _ _ s Hc Hinv Hg) as (i & s' & Hstep).
    apply step_potential in Hstep. lia.
  - destruct (gather s) eqn:Hg; [by exists [], s; rewrite Hg|].
    destruct (step_possible _ _ _ _ _ s Hc Hinv Hg) as (i & s' & Hstep).
    destruct (IH s') as (sched & s'' & Hexec & Hdone).
    + apply step_potential in Hstep. lia.
    + by eapply step_inv.
    + exists (i :: sched), s''. simpl. by rewrite Hstep.
Qed.

Section Runs.
Context (host : pystr) (ports : list Z) (concurrency : Z) (timeout : Q).
Context (env : nat → world).
Hypothesis concurrency_pos : (0 < concurrency)%Z.
Hypothesis env_ordinary : ∀ i, ordinary_failures (env i) = true.

Abbreviation init := (scan_init ports concurrency env).

Lemma run_scan_unfold sched r :
  run_scan host ports concurrency timeout env sched = Some r →
  ∃ s, exec host timeout sched init = Some s
       ∧ scan_inv host ports concurrency timeout env s
       ∧ gather s = Some (Ok tt) ∧ r = Ok (results s).
Proof.
  unfold run_scan. destruct (Z.ltb_spec concurrency 0); [lia|].
  destruct (exec host timeout sched init) as [s|] eqn:Hexec; [|done].
  assert (scan_inv host ports concurrency timeout env s) as Hinv.
  { eapply exec_inv; [apply init_inv; lia|done]. }
  assert (raised s = None) as Hra.
  { apply (exec_raised host ports concurrency timeout env env_ordinary sched init s);
      [apply init_inv; lia|done|done]. }
  unfold gather. rewrite Hra.
  destruct (forallb is_finished (tasks s)) eqn:Hfin; [|done].
  intros [= <-]. exists s. unfold gather. by rewrite Hra, Hfin.
Qed.

(** Every run is short, and every run can be carried on until
    [run_scan] returns its dictionary. *)
Lemma run_scan_terminates sched s :
  exec host timeout sched init = Some s →
  length sched ≤ 2 * length ports
  ∧ ∃ sched' m,
      run_scan host ports concurrency timeout env (sched ++ sched') = Some (Ok m).
Proof.
  intros Hexec. split; [by eapply exec_bounded|].
  assert (scan_inv host ports concurrency timeout env s) as Hinv.
  { eapply exec_inv; [apply init_inv; lia|done]. }
  destruct (exec_completes _ _ _ _ _ s concurrency_pos Hinv) as (sched' & s' & Hexec' & Hg).
  exists sched', (results s'). unfold run_scan.
  destruct (Z.ltb_spec concurrency 0); [lia|].
  rewrite exec_app, Hexec. simpl. rewrite Hexec'.
  assert (raised s' = None) as Hra.
  { apply (exec_raised host ports concurrency timeout env env_ordinary sched' s s');
      [done| |done].
    apply (exec_raised host ports concurrency timeout env env_ordinary sched init s);
      [apply init_inv; lia|done|done]. }
  unfold gather in *. rewrite Hra in *.
  by destruct (forallb is_finished (tasks s')).
Qed.

Lemma run_scan_result sched r :
  run_scan host ports concurrency timeout env sched = Some r →
  ∃ m ws,
    r = Ok m ∧ dom m = list_to_set ports ∧ ws.*1 ≡ₚ ports
    ∧ (∀ p v, (p, v) ∈ ws →
         ∃ i, ports !! i = Some p ∧ (run_probe host p timeout (env i)).1 = Ok v)
    ∧ (∀ ws1 p v ws2, ws = ws1 ++ (p, v) :: ws2 → p ∉ ws2.*1 → m !! p = Some v).
Proof.
  intros (s & Hexec & Hinv & Hg & ->)%run_scan_unfold.
  destruct (scan_final _ _ _ _ _ s Hinv Hg) as [Hperm Hdom].
  exists (results s), (writes s). repeat split; [done..| |].
  - apply (inv_written _ _ _ _ _ _ Hinv).
  - intros ws1 p v ws2. by apply (last_write_wins host ports concurrency timeout env).
Qed.
End Runs.

Lemma size_list_to_set_remove_dups (l : list Z) :
  size (list_to_set l : gset Z) = length (remove_dups l).
Proof.
  rewrite <- (size_list_to_set (C:=gset Z) (remove_dups l)) by apply NoDup_remove_dups.
  f_equal. apply set_eq. intros x. by rewrite !elem_of_list_to_set, elem_of_remove_dups.
Qed.

(** ** The contract of the engine *)

(** C1. For a request of N distinct ports, a positive concurrency and
    probes that meet ordinary errors only, [run_scan] returns: every run
    of the event loop takes at most 2N steps and can be carried on to the
    return of the dictionary; and the dictionary returned has exactly N
    entries, one under each requested port and none under another key,
    whatever the probes reported. *)
Theorem run_scan_one_entry_per_port host ports concurrency timeout env :
  NoDup ports → (0 < concurrency)%Z → (∀ i, ordinary_failures (env i) = true) →
  (∀ sched s, exec host timeout sched (scan_init ports concurrency env) = Some s →
     length sched ≤ 2 * length ports
     ∧ ∃ sched' m,
         run_scan host ports concurrency timeout env (sched ++ sched') = Some (Ok m))
  ∧ (∀ sched r, run_scan host ports concurrency timeout env sched = Some r →
       ∃ m, r = Ok m ∧ size m = length ports ∧ ∀ p, p ∈ ports ↔ is_Some (m !! p)).
Proof.
  intros Hnd Hc Henv. split.
  - intros sched s. by apply run_scan_terminates.
  - intros sched r Hr.
    destruct (run_scan_result host ports concurrency timeout env Hc Henv sched r Hr)
      as (m & ws & -> & Hdom & _).
    exists m. split; [done|]. split.
    + by rewrite <- size_dom, Hdom, size_list_to_set.
    + intros p. by rewrite <- elem_of_dom, Hdom, elem_of_list_to_set.
Qed.

(** C9. With a positive concurrency, in every state that a scan can
    reach the number of tasks inside [probe_port_once], which are the
    holders of the gate, is at most [concurrency]; and when it equals
    [concurrency] no waiting task can enter the gate. *)
Theorem gate_never_exceeded host ports concurrency timeout env s :
  (0 < concurrency)%Z → reachable host ports concurrency timeout env s →
  (Z.of_nat (running s) ≤ concurrency)%Z
  ∧ (Z.of_nat (running s) = concurrency →
     ∀ i t, tasks s !! i = Some t → t_state t = Waiting → step host timeout i s = None).
Proof.
  intros Hc Hs. apply reachable_inv in Hs; [|lia].
  pose proof (inv_permits _ _ _ _ _ _ Hs) as Hperm.
  pose proof (inv_permits_nonneg _ _ _ _ _ _ Hs) as Hnn.
  split; [lia|]. intros Hfull i t Hi Hst. unfold step. rewrite Hi, Hst.
  unfold worker_enter. destruct (Z.ltb_spec 0 (sem_value s)); [lia|done].
Qed.

(** C10. When the submitted list repeats a port, [run_scan] (with a
    positive concurrency and probes that meet ordinary errors only)
    still returns, after at most two steps per submitted element, and
    the dictionary has exactly one entry per distinct port: one store
    was made per submitted element, each with the result of a probe of
    that port, and the entry of a port is the value stored last. *)
Theorem run_scan_duplicate_ports host ports concurrency timeout env :
  (0 < concurrency)%Z → (∀ i, ordinary_failures (env i) = true) →
  (∀ sched s, exec host timeout sched (scan_init ports concurrency env) = Some s →
     length sched ≤ 2 * length ports
     ∧ ∃ sched' m,
         run_scan host ports concurrency timeout env (sched ++ sched') = Some (Ok m))
  ∧ (∀ sched r, run_scan host ports concurrency timeout env sched = Some r →
       ∃ m ws,
         r = Ok m ∧ dom m = list_to_set ports ∧ size m = length (remove_dups ports)
         ∧ ws.*1 ≡ₚ ports
         ∧ (∀ p v, (p, v) ∈ ws →
              ∃ i, ports !! i = Some p ∧ (run_probe host p timeout (env i)).1 = Ok v)
         ∧ (∀ ws1 p v ws2, ws = ws1 ++ (p, v) :: ws2 → p ∉ ws2.*1 → m !! p = Some v)).
Proof.
  intros Hc Henv. split.
  - intros sched s. by apply run_scan_terminates.
  - intros sched r Hr.
    destruct (run_scan_result host ports concurrency timeout env Hc Henv sched r Hr)
      as (m & ws & -> & Hdom & Hperm & Hres & Hlast).
    exists m, ws. repeat split; try done.
    by rewrite <- size_dom, Hdom, size_list_to_set_remove_dups.
Qed.

Lemma run_scan_one_entry_per_port_witness :
  NoDup [22; 80; 443]%Z ∧ (0 < 2)%Z
  ∧ ∃ m, run_scan example_host [22; 80; 443]%Z 2 (Qmake 2 1) (λ _, silent_world)
           [0; 1; 0; 2; 1; 2] = Some (Ok m)
         ∧ size m = 3.
Proof.
  assert (NoDup [22; 80; 443]%Z) as Hnd by (by apply (bool_decide_unpack _)).
  split; [done|]. split; [lia|].
  pose proof (run_scan_one_entry_per_port example_host [22; 80; 443]%Z 2 (Qmake 2 1)
                (λ _, silent_world) Hnd eq_refl (λ _, eq_refl)) as [_ Hres].
  destruct (run_scan example_host [22; 80; 443]%Z 2 (Qmake 2 1) (λ _, silent_world)
              [0; 1; 0; 2; 1; 2]) as [r|] eqn:Hrun.
  - destruct (Hres _ _ Hrun) as (m & -> & Hsize & _). by exists m.
  - vm_compute in Hrun. discriminate.
Defined.

Lemma gate_never_exceeded_witness :
  (0 < 2)%Z
  ∧ ∃ s, exec example_host (Qmake 2 1) [0; 1]
           (scan_init [22; 80; 443]%Z 2 (λ _, silent_world)) = Some s
         ∧ (Z.of_nat (running s) ≤ 2)%Z
         ∧ step example_host (Qmake 2 1) 2 s = None.
Proof.
  split; [lia|]. eexists. split; [reflexivity|].
  match goal with
  | |- (Z.of_nat (running ?s) ≤ _)%Z ∧ _ =>
      destruct (gate_never_exceeded example_host [22; 80; 443]%Z 2 (Qmake 2 1)
                  (λ _, silent_world) s eq_refl (ex_intro _ [0; 1] eq_refl))
        as [Hle Hfull]
  end.
  split; [exact Hle|]. by eapply Hfull.
Defined.

Lemma run_scan_duplicate_ports_witness :
  (0 < 1)%Z
  ∧ ∃ m, run_scan example_host [80; 22; 80]%Z 1 (Qmake 2 1)
           (λ i, if decide (i = 2) then accepting_world (Ok scenario_b_data)
                 else silent_world)
           (fifo_schedule 3) = Some (Ok m)
         ∧ size m = 2
         ∧ m !! 80%Z = Some (OPEN, lit "HTTP/1.1 200 OK  Server: X").
Proof.
  split; [lia|].
  set (env := λ i : nat, if decide (i = 2) then accepting_world (Ok scenario_b_data)
                         else silent_world).
  assert (∀ i, ordinary_failures (env i) = true) as Henv.
  { intros i. unfold env. by destruct (decide (i = 2)). }
  pose proof (run_scan_duplicate_ports example_host [80; 22; 80]%Z 1 (Qmake 2 1)
                env eq_refl Henv) as [_ Hres].
  destruct (run_scan example_host [80; 22; 80]%Z 1 (Qmake 2 1) env (fifo_schedule 3))
    as [r|] eqn:Hrun.
  - destruct (Hres _ _ Hrun) as (m & ws & -> & _ & Hsize & _). exists m.
    split; [done|]. split; [exact Hsize|].
    vm_compute in Hrun. injection Hrun as <-. reflexivity.
  - vm_compute in Hrun. discriminate.
Defined.

(** ** The edges of the engine *)

(** An empty port list is answered at once, with an empty dictionary. *)
Lemma run_scan_no_ports host concurrency timeout env :
  (0 ≤ concurrency)%Z → run_scan host [] concurrency timeout env [] = Some (Ok ∅).
Proof. intros Hc. unfold run_scan. by destruct (Z.ltb_spec concurrency 0); [lia|]. Qed.

(** [Semaphore] refuses a negative value. *)
Lemma run_scan_negative_concurrency host ports concurrency timeout env sched :
  (concurrency < 0)%Z →
  run_scan host ports concurrency timeout env sched = Some (Raise ValueError).
Proof. intros Hc. unfold run_scan. by destruct (Z.ltb_spec concurrency 0); [|lia]. Qed.

(** X9. With a concurrency of zero the gate has no permit: every worker
    waits for ever at [async with sem], and whatever the event loop does,
    [run_scan] neither returns nor raises as soon as there is a port to
    scan. *)
Lemma run_scan_zero_concurrency host ports timeout env sched :
  ports ≠ [] → run_scan host ports 0 timeout env sched = None.
Proof.
  intros Hports. unfold run_scan. simpl.
  assert (∀ i, step host timeout i (scan_init ports 0 env) = None) as Hstuck.
  { intros i. unfold step. simpl. rewrite create_tasks_lookup.
    by destruct (ports !! i). }
  destruct sched as [|i sched]; simpl; [|by rewrite Hstuck].
  unfold gather. simpl. destruct ports as [|p ports]; done.
Qed.

Lemma run_scan_zero_concurrency_witness :
  run_scan example_host [22; 80]%Z 0 (Qmake 2 1) (λ _, silent_world) [0; 1; 0; 1] = None.
Proof. by apply run_scan_zero_concurrency. Defined.

(** ** The scenarios of the specification *)

(** A host that refuses the connections on ports 21 and 23. *)
Example scenario_refused :
  run_scan example_host [21; 23]%Z 200 (Qmake 2 1)
    (λ _, failing_world ConnectionRefusedError) (fifo_schedule 2)
  = Some (Ok {[ 21%Z := (CLOSED, []); 23%Z := (CLOSED, []) ]}).
Proof. by vm_compute. Qed.

(** A port whose SYNs are dropped. *)
Example scenario_blackhole :
  run_probe example_host 9999 (Qmake 1 2) (failing_world TimeoutError)
  = (Ok (FILTERED, []), [EvConnect example_host 9999 (Qmake 1 2)]).
Proof. reflexivity. Qed.

(** A listener that stays silent: OPEN, no banner, and the writer is
    closed. *)
Example scenario_silent :
  run_probe example_host 22 (Qmake 2 1) silent_world
  = (Ok (OPEN, []),
     [EvConnect example_host 22 (Qmake 2 1); EvRead 4096 (Qmake 9 10); EvClose;
      EvWaitClosed]).
Proof. reflexivity. Qed.

(** The writer is closed on every path out of the connected phase. *)
Lemma probe_closes_writer host port timeout w :
  w_connect w = Ok tt → EvClose ∈ (run_probe host port timeout w).2.
Proof.
  intros Hc. destruct w as [c wr dr rd cl wc]. simpl in Hc. subst c. probe_cases.
  all: rewrite ?elem_of_cons; tauto.
Qed.

(** * The rows of the report *)

Section ReportRowsSpec.
Context (str_lower : pystr → pystr).

Lemma row_shown_spec item :
  (∀ s, str_lower s = [] → s = []) →
  row_shown str_lower item = true
  ↔ status item = OPEN
    ∨ (status item = FILTERED ∧ service item ≠ []
       ∧ str_lower (service item) ≠ UNKNOWN).
Proof.
  intros Hlower. unfold row_shown, pystr_in, pystr_eqb. simpl.
  rewrite orb_true_iff, !andb_true_iff, negb_true_iff, !bool_decide_eq_true.
  rewrite orb_false_r, orb_false_iff, !bool_decide_eq_false.
  assert (truthy (service item) = true ↔ service item ≠ []) as ->.
  { by destruct (service item). }
  split; [tauto|]. intros [?|(? & Hne & ?)]; [tauto|].
  right. repeat split; try done. intros Hempty. by apply Hne, Hlower.
Qed.

Lemma collect_rows_spec rows merged_ports :
  collect_rows str_lower rows merged_ports
  = rows ++ ((λ item, (port item, status item, service item, version item))
             <$> filter (λ item, row_shown str_lower item = true) merged_ports).
Proof.
  revert rows. induction merged_ports as [|item rest IH]; intros rows; simpl.
  - by rewrite app_nil_r.
  - rewrite filter_cons. destruct (row_shown str_lower item) eqn:Hshown.
    + rewrite decide_True by done. rewrite IH, <- app_assoc. done.
    + rewrite decide_False by done. apply IH.
Qed.
End ReportRowsSpec.

(** C8. The table has a row for an entry exactly when its status is
    OPEN, or its status is FILTERED and its service description is
    non-empty and is not, once lower-cased, the placeholder "(unknown)";
    the rows keep the order of the entries, and no other entry is
    rendered. *)
Theorem table_rows_filter str_lower merged_ports :
  (∀ s, str_lower s = [] → s = []) →
  table_rows str_lower merged_ports
  = (λ item, (port item, status item, service item, version item))
    <$> filter (λ item, status item = OPEN
                        ∨ (status item = FILTERED ∧ service item ≠ []
                           ∧ str_lower (service item) ≠ UNKNOWN))
          merged_ports.
Proof.
  intros Hlower. unfold table_rows, print_table. rewrite collect_rows_spec. simpl.
  rewrite (list_filter_iff _ (λ item, status item = OPEN
                                ∨ (status item = FILTERED ∧ service item ≠ []
                                   ∧ str_lower (service item) ≠ UNKNOWN)))
    by (intros item; by apply row_shown_spec).
  by case_match.
Qed.

Lemma table_rows_filter_witness :
  table_rows ascii_lower example_report
  = [ (22%Z, OPEN, [], lit "SSH-2.0"); (25%Z, FILTERED, lit "smtp", []) ].
Proof.
  rewrite (table_rows_filter ascii_lower example_report).
  - reflexivity.
  - intros s Hs. by destruct s.
Defined.

(** * Further properties of the prober *)

(** ** The size of a decoded text *)

Lemma utf8_lead_size n :
  length (utf8_lead n).1 + utf8_pending (utf8_lead n).2 ≤ 1.
Proof. unfold utf8_lead. repeat case_match; simpl; lia. Qed.

(** Decoding never makes more characters than there are bytes. *)
Lemma utf8_decode_from_length st bs :
  length (utf8_decode_from st bs) ≤ length bs + utf8_pending st.
Proof.
  revert st. induction bs as [|b bs IH]; intros st; simpl.
  - destruct st; simpl; lia.
  - destruct st as [|need cp lo hi].
    + pose proof (utf8_lead_size (Byte.to_N b)) as Hlead.
      destruct (utf8_lead (Byte.to_N b)) as [out st']. simpl in *.
      rewrite length_app. specialize (IH st'). lia.
    + destruct ((lo <=? Byte.to_N b)%N && (Byte.to_N b <=? hi)%N).
      * destruct need as [|[|k]]; simpl.
        -- specialize (IH U_start). simpl in IH. lia.
        -- specialize (IH U_start). simpl in IH. lia.
        -- match goal with |- context [utf8_decode_from ?st' bs] => specialize (IH st') end.
           simpl in IH. lia.
      * pose proof (utf8_lead_size (Byte.to_N b)) as Hlead.
        destruct (utf8_lead (Byte.to_N b)) as [out st']. simpl in *.
        rewrite length_app. specialize (IH st'). lia.
Qed.

Lemma py_lstrip_length s : length (py_lstrip s) ≤ length s.
Proof. induction s as [|c s IH]; simpl; [done|]. destruct (py_isspace c); simpl; lia. Qed.

Lemma py_strip_length s : length (py_strip s) ≤ length s.
Proof.
  unfold py_strip, py_rstrip. rewrite length_rev.
  etrans; [apply py_lstrip_length|]. rewrite length_rev. apply py_lstrip_length.
Qed.

Lemma banner_of_data_length data : length (banner_of_data data) ≤ length data.
Proof.
  unfold banner_of_data, py_replace. rewrite !length_map.
  etrans; [apply py_strip_length|].
  pose proof (utf8_decode_from_length U_start data) as Hlen. simpl in Hlen.
  unfold utf8_decode_replace. lia.
Qed.

Lemma banner_of_data_no_line_break data :
  Forall (λ c, c ≠ CR ∧ c ≠ LF) (banner_of_data data).
Proof.
  unfold banner_of_data, py_replace. apply Forall_forall. intros c.
  intros (c1 & -> & (c0 & -> & _)%list_elem_of_fmap)%list_elem_of_fmap.
  unfold CR, LF, SPACE. repeat case_match; split; try done.
  all: rewrite ?N.eqb_eq, ?N.eqb_neq in *; congruence.
Qed.

Lemma banner_of_data_stripped data : py_strip (banner_of_data data) = banner_of_data data.
Proof.
  unfold banner_of_data. rewrite !py_strip_replace by done. by rewrite py_strip_idemp.
Qed.

(** The banner of a probe is empty or made of the first bytes read. *)
Lemma run_probe_banner_source host port timeout w status banner :
  (run_probe host port timeout w).1 = Ok (status, banner) →
  banner = [] ∨ ∃ data, w_read w = Ok data ∧ banner = banner_of_data (take READ_LIMIT data).
Proof.
  destruct w as [c wr dr rd cl wc]. probe_cases.
  all: intros [= <- <-]; try (by left).
  all: right; eexists; split; [reflexivity|]; congruence.
Qed.

(** X1. Whatever the peer sends and whatever fails, a banner returned by
    the prober has at most 4096 characters, holds no carriage return and
    no line feed, and has no white space at either end. *)
Theorem probe_banner_bounded_and_clean host port timeout w status banner :
  (run_probe host port timeout w).1 = Ok (status, banner) →
  length banner ≤ 4096
  ∧ Forall (λ c, c ≠ CR ∧ c ≠ LF) banner
  ∧ py_strip banner = banner.
Proof.
  intros [->|(data & _ & ->)]%run_probe_banner_source.
  - split; [simpl; lia|]. by split.
  - split; [|split].
    + etrans; [apply banner_of_data_length|]. rewrite length_take. unfold READ_LIMIT. lia.
    + apply banner_of_data_no_line_break.
    + apply banner_of_data_stripped.
Qed.

Lemma probe_banner_bounded_and_clean_witness :
  length (lit "HTTP/1.1 200 OK  Server: X") ≤ 4096
  ∧ Forall (λ c, c ≠ CR ∧ c ≠ LF) (lit "HTTP/1.1 200 OK  Server: X")
  ∧ py_strip (lit "HTTP/1.1 200 OK  Server: X") = lit "HTTP/1.1 200 OK  Server: X".
Proof.
  apply (probe_banner_bounded_and_clean example_host 80 (Qmake 2 1)
           (accepting_world (Ok scenario_b_data)) OPEN).
  reflexivity.
Defined.

(** ** What the prober does to the connection *)

(** X2. The prober connects once, first. When the connect fails it
    touches nothing else. When the connect succeeds, whatever happens
    next, be it an error or an interruption, [writer.close()] is called
    exactly once, after every write and read, and [wait_closed] is
    awaited after it exactly when [close] did not raise. *)
Theorem probe_closes_what_it_opened host port timeout w :
  (∀ e, w_connect w = Raise e →
        (run_probe host port timeout w).2 = [EvConnect host port timeout])
  ∧ (w_connect w = Ok tt →
     ∃ mid,
       (run_probe host port timeout w).2
       = EvConnect host port timeout :: mid ++ EvClose ::
           match w_close w with Ok _ => [EvWaitClosed] | Raise _ => [] end
       ∧ Forall (λ ev, ev ≠ EvClose ∧ ev ≠ EvWaitClosed
                       ∧ ∀ h p t, ev ≠ EvConnect h p t) mid).
Proof.
  split.
  - intros e Hc. destruct w as [c wr dr rd cl wc]. simpl in Hc. subst c.
    probe_cases; reflexivity.
  - intros Hc. destruct w as [c wr dr rd cl wc]. simpl in Hc. subst c.
    probe_cases.
    all: match goal with
         | |- ∃ mid, _ :: ?l = _ :: mid ++ EvClose :: ?tl ∧ _ =>
             let n := eval cbv in (length l - S (length tl))%nat in
             exists (take n l)
         end.
    all: split; [reflexivity|].
    all: repeat constructor; done.
Qed.

Lemma probe_closes_what_it_opened_witness :
  ∃ mid,
    (run_probe example_host 8080 (Qmake 2 1) broken_pipe_world).2
    = EvConnect example_host 8080 (Qmake 2 1) :: mid ++ [EvClose]
    ∧ Forall (λ ev, ev ≠ EvClose ∧ ev ≠ EvWaitClosed ∧ ∀ h p t, ev ≠ EvConnect h p t) mid.
Proof.
  by apply (probe_closes_what_it_opened example_host 8080 (Qmake 2 1) broken_pipe_world).
Defined.

(** X3. On an HTTP port the banner read depends on the request: when
    the request cannot be encoded, or the write or the drain raises,
    nothing is read at all, and a failed write is not drained. *)
Theorem failed_request_skips_the_read host port timeout w :
  w_connect w = Ok tt → is_http_port port = true →
  (utf8_encode (http_request host) = None ∨ w_write w ≠ Ok tt ∨ w_drain w ≠ Ok tt →
   ∀ n d, EvRead n d ∉ (run_probe host port timeout w).2)
  ∧ (w_write w ≠ Ok tt → EvDrain ∉ (run_probe host port timeout w).2).
Proof.
  intros Hc Hp. destruct w as [c wr dr rd cl wc]. simpl in *. subst c. split.
  - intros Hfail n d. probe_cases.
    all: try discriminate.
    all: repeat match goal with u : unit |- _ => destruct u end.
    all: try (exfalso; destruct Hfail as [?|[?|?]]; congruence).
    all: intros H; log_member H.
  - intros Hfail. probe_cases.
    all: try discriminate.
    all: repeat match goal with u : unit |- _ => destruct u end.
    all: try (exfalso; congruence).
    all: intros H; log_member H.
Qed.

Lemma failed_request_skips_the_read_witness :
  is_http_port 8080 = true
  ∧ EvRead 4096 (Qmake 9 10) ∉ (run_probe example_host 8080 (Qmake 2 1) broken_pipe_world).2.
Proof.
  split; [reflexivity|].
  apply (failed_request_skips_the_read example_host 8080 (Qmake 2 1) broken_pipe_world);
    [reflexivity|reflexivity|].
  right. left. discriminate.
Defined.

(** * Further properties of the engine *)

(** The status and the banner of any pair that the prober returns. *)
Lemma run_probe_pair_shape host port timeout w status banner :
  (run_probe host port timeout w).1 = Ok (status, banner) →
  status ∈ [OPEN; CLOSED; FILTERED] ∧ (banner ≠ [] → status = OPEN)
  ∧ length banner ≤ 4096.
Proof.
  intros Hr. split; [|split].
  - destruct (w_connect w) as [[]|e] eqn:Hc.
    + rewrite run_probe_connected in Hr by done.
      destruct (connected_phase host port w _) as [[b|e] tr]; simpl in Hr; simplify_eq.
      set_solver.
    + rewrite (run_probe_connect_failed _ _ _ _ e) in Hr by done. simpl in Hr.
      repeat case_match; simplify_eq; set_solver.
  - destruct (w_connect w) as [[]|e] eqn:Hc.
    + rewrite run_probe_connected in Hr by done.
      destruct (connected_phase host port w _) as [[b|e] tr]; simpl in Hr; by simplify_eq.
    + rewrite (run_probe_connect_failed _ _ _ _ e) in Hr by done. simpl in Hr.
      repeat case_match; by simplify_eq.
  - apply run_probe_banner_source in Hr as [->|(data & _ & ->)]; [simpl; lia|].
    etrans; [apply banner_of_data_length|]. rewrite length_take. unfold READ_LIMIT. lia.
Qed.

(** X4. For distinct ports the dictionary maps every requested port to
    the pair that the probe of that very port returned, so the result of
    a scan does not depend on the order in which the probes complete. *)
Theorem run_scan_maps_port_to_its_probe host ports concurrency timeout env :
  NoDup ports → (0 < concurrency)%Z → (∀ i, ordinary_failures (env i) = true) →
  (∀ sched r, run_scan host ports concurrency timeout env sched = Some r →
     ∃ m, r = Ok m
          ∧ ∀ i p, ports !! i = Some p →
              ∃ v, (run_probe host p timeout (env i)).1 = Ok v ∧ m !! p = Some v)
  ∧ (∀ sched sched' r r',
       run_scan host ports concurrency timeout env sched = Some r →
       run_scan host ports concurrency timeout env sched' = Some r' → r = r').
Proof.
  intros Hnd Hc Henv.
  assert (∀ sched r, run_scan host ports concurrency timeout env sched = Some r →
            ∃ m, r = Ok m ∧ dom m = list_to_set ports
                 ∧ ∀ i p, ports !! i = Some p →
                     ∃ v, (run_probe host p timeout (env i)).1 = Ok v ∧ m !! p = Some v)
    as Hvalues.
  { intros sched r Hr.
    destruct (run_scan_result host ports concurrency timeout env Hc Henv sched r Hr)
      as (m & ws & -> & Hdom & Hperm & Hres & Hlast).
    exists m. split; [done|]. split; [done|]. intros i p Hi.
    assert (p ∈ ws.*1) as ([p' v] & [= <-] & Hin)%list_elem_of_fmap.
    { rewrite Hperm. by eapply list_elem_of_lookup_2. }
    apply list_elem_of_split in Hin as (ws1 & ws2 & ->).
    assert (NoDup ((ws1 ++ (p, v) :: ws2).*1)) as Hndw by (by rewrite Hperm).
    rewrite fmap_app, fmap_cons in Hndw. simpl in Hndw.
    apply NoDup_app in Hndw as (_ & _ & [Hp2 _]%NoDup_cons).
    destruct (Hres p v) as (j & Hj & Hv).
    { apply elem_of_app. right. apply list_elem_of_here. }
    assert (i = j) as <- by (by eapply NoDup_lookup).
    exists v. split; [done|]. by eapply Hlast. }
  split.
  - intros sched r Hr. destruct (Hvalues sched r Hr) as (m & -> & _ & Hm). by exists m.
  - intros sched sched' r r' Hr Hr'.
    destruct (Hvalues sched r Hr) as (m & -> & Hdom & Hm).
    destruct (Hvalues sched' r' Hr') as (m' & -> & Hdom' & Hm').
    f_equal. apply map_eq. intros p.
    destruct (decide (p ∈ ports)) as [[i Hi]%list_elem_of_lookup|Hout].
    + destruct (Hm i p Hi) as (v & Hv & ->). destruct (Hm' i p Hi) as (v' & Hv' & ->).
      congruence.
    + assert (m !! p = None) as ->.
      { apply not_elem_of_dom. rewrite Hdom. by rewrite elem_of_list_to_set. }
      symmetry. apply not_elem_of_dom. rewrite Hdom'. by rewrite elem_of_list_to_set.
Qed.

Lemma run_scan_maps_port_to_its_probe_witness :
  run_scan example_host [22; 80; 443]%Z 2 (Qmake 2 1) (λ _, silent_world) [0; 1; 0; 2; 1; 2]
  = run_scan example_host [22; 80; 443]%Z 2 (Qmake 2 1) (λ _, silent_world) (fifo_schedule 3).
Proof.
  assert (NoDup [22; 80; 443]%Z) as Hnd by (by apply (bool_decide_unpack _)).
  pose proof (run_scan_maps_port_to_its_probe example_host [22; 80; 443]%Z 2 (Qmake 2 1)
                (λ _, silent_world) Hnd eq_refl (λ _, eq_refl)) as [_ Hsame].
  destruct (run_scan example_host [22; 80; 443]%Z 2 (Qmake 2 1) (λ _, silent_world)
              [0; 1; 0; 2; 1; 2]) as [r|] eqn:Hr; [|by vm_compute in Hr].
  destruct (run_scan example_host [22; 80; 443]%Z 2 (Qmake 2 1) (λ _, silent_world)
              (fifo_schedule 3)) as [r'|] eqn:Hr'; [|by vm_compute in Hr'].
  f_equal. by eapply Hsame.
Defined.

(** X5. Every entry of the dictionary that a scan returns, with or
    without repeated ports, carries a status among OPEN, CLOSED and
    FILTERED, a banner of at most 4096 characters, and a non-empty banner
    only next to OPEN. *)
Theorem run_scan_entries_well_formed host ports concurrency timeout env sched m :
  (0 < concurrency)%Z → (∀ i, ordinary_failures (env i) = true) →
  run_scan host ports concurrency timeout env sched = Some (Ok m) →
  ∀ p status banner, m !! p = Some (status, banner) →
    p ∈ ports ∧ status ∈ [OPEN; CLOSED; FILTERED] ∧ (banner ≠ [] → status = OPEN)
    ∧ length banner ≤ 4096.
Proof.
  intros Hc Henv Hr p status banner Hp.
  apply (run_scan_unfold host ports concurrency timeout env Hc Henv) in Hr
    as (s & _ & Hinv & _ & [= ->]).
  rewrite (inv_results _ _ _ _ _ _ Hinv) in Hp.
  apply elem_of_list_to_map_2 in Hp. rewrite elem_of_reverse in Hp.
  destruct (inv_written _ _ _ _ _ _ Hinv _ _ Hp) as (i & Hi & Hv).
  split; [by eapply list_elem_of_lookup_2|]. by eapply run_probe_pair_shape.
Qed.

Lemma run_scan_entries_well_formed_witness :
  run_scan example_host [21; 23]%Z 200 (Qmake 2 1)
    (λ _, failing_world ConnectionRefusedError) (fifo_schedule 2)
  = Some (Ok {[ 21%Z := (CLOSED, []); 23%Z := (CLOSED, []) ]})
  ∧ 23%Z ∈ [21; 23]%Z ∧ CLOSED ∈ [OPEN; CLOSED; FILTERED].
Proof.
  assert (run_scan example_host [21; 23]%Z 200 (Qmake 2 1)
            (λ _, failing_world ConnectionRefusedError) (fifo_schedule 2)
          = Some (Ok {[ 21%Z := (CLOSED, []); 23%Z := (CLOSED, []) ]})) as Hrun
    by (by vm_compute).
  split; [done|].
  destruct (run_scan_entries_well_formed example_host [21; 23]%Z 200 (Qmake 2 1)
              (λ _, failing_world ConnectionRefusedError) (fifo_schedule 2) _
              eq_refl (λ _, eq_refl) Hrun 23%Z CLOSED []) as (Hp & Hst & _);
    [by vm_compute|].
  by split.
Defined.

(** X6. When [tqdm] is installed the progress bar is ticked once per
    finished worker: in every state of a scan its count is the number of
    tasks that have written their result, never more than [len(ports)],
    and it is exactly [len(ports)] when [gather] returns. Without [tqdm]
    there is no bar in any state, and nothing is ticked. *)
Theorem progress_counts_finished_tasks host ports concurrency timeout env sched s tqdm :
  (0 ≤ concurrency)%Z →
  exec host timeout sched (scan_init ports concurrency env) = Some s →
  (tqdm = false → progress_bar tqdm s = None)
  ∧ (tqdm = true →
     progress_bar tqdm s
     = Some (length (filter (λ t, is_finished t = true) (tasks s)))
     ∧ length (filter (λ t, is_finished t = true) (tasks s)) ≤ length ports
     ∧ (gather s = Some (Ok tt) → progress_bar tqdm s = Some (length ports))).
Proof.
  intros Hc Hexec. split; [by intros ->|]. intros ->. unfold progress_bar.
  assert (scan_inv host ports concurrency timeout env s) as Hinv.
  { eapply exec_inv; [by apply init_inv|done]. }
  assert (progress s = length (filter (λ t, is_finished t = true) (tasks s))) as Hticks.
  { rewrite (inv_progress _ _ _ _ _ _ Hinv).
    rewrite <- (length_fmap fst (writes s)), (inv_writes _ _ _ _ _ _ Hinv).
    by rewrite length_fmap. }
  assert (length (tasks s) = length ports) as Hlen.
  { by rewrite <- (inv_ports _ _ _ _ _ _ Hinv), length_fmap. }
  split; [by rewrite Hticks|]. split.
  - rewrite <- Hlen. apply length_filter.
  - intros Hg. destruct (scan_final _ _ _ _ _ s Hinv Hg) as [Hperm _]. f_equal.
    rewrite (inv_progress _ _ _ _ _ _ Hinv), <- (length_fmap fst (writes s)).
    by rewrite Hperm.
Qed.

Lemma progress_counts_finished_tasks_witness :
  ∃ s, exec example_host (Qmake 2 1) [0; 1; 0]
         (scan_init [22; 80; 443]%Z 2 (λ _, silent_world)) = Some s
       ∧ progress_bar true s = Some 1
       ∧ progress_bar false s = None.
Proof.
  eexists. split; [reflexivity|].
  match goal with
  | |- progress_bar true ?s = _ ∧ _ =>
      destruct (progress_counts_finished_tasks example_host [22; 80; 443]%Z 2 (Qmake 2 1)
                  (λ _, silent_world) [0; 1; 0] s true ltac:(lia) eq_refl)
        as (_ & Hbar);
      destruct (progress_counts_finished_tasks example_host [22; 80; 443]%Z 2 (Qmake 2 1)
                  (λ _, silent_world) [0; 1; 0] s false ltac:(lia) eq_refl)
        as (Hnone & _)
  end.
  split; [|by apply Hnone].
  destruct (Hbar eq_refl) as (-> & _). reflexivity.
Defined.



(** The worker of a probe that raises never writes a result. *)
Lemma exec_never_finished host ports concurrency timeout env i p e sched s :
  (0 ≤ concurrency)%Z → ports !! i = Some p →
  (run_probe host p timeout (env i)).1 = Raise e →
  exec host timeout sched (scan_init ports concurrency env) = Some s →
  ∃ t, tasks s !! i = Some t ∧ t_state t ≠ Finished.
Proof.
  intros Hc Hi Hraise.
  assert (∀ sched s s', scan_inv host ports concurrency timeout env s →
            (∃ t, tasks s !! i = Some t ∧ t_state t ≠ Finished) →
            exec host timeout sched s = Some s' →
            ∃ t, tasks s' !! i = Some t ∧ t_state t ≠ Finished) as Hexec.
  { clear sched s. induction sched as [|j sched IH]; intros s s' Hinv Hs; simpl.
    - by intros [= <-].
    - destruct (step host timeout j s) as [s1|] eqn:Hstep; [|done].
      apply IH; [by eapply step_inv|]. clear IH s'.
      destruct Hs as (t & Ht & Hnf). unfold step in Hstep.
      destruct (tasks s !! j) as [u|] eqn:Hj; [|done].
      destruct (decide (j = i)) as [->|Hne].
      + assert (u = t) as -> by congruence.
        assert (i < length (tasks s)) as Hlt by (by eapply lookup_lt_Some).
        destruct (t_state t) eqn:Hst; try done.
        * unfold worker_enter in Hstep. case_match; [|done]. injection Hstep as <-.
          simpl. rewrite list_lookup_insert_eq by done. by eexists.
        * injection Hstep as <-. unfold worker_leave.
          rewrite (tasks_port_lookup _ _ _ _ _ s i t Hinv Ht) in Hi. injection Hi as ->.
          rewrite (inv_worlds _ _ _ _ _ _ Hinv i t Ht), Hraise. simpl.
          rewrite list_lookup_insert_eq by done. by eexists.
      + exists t. split; [|done].
        destruct (t_state u); try done.
        * unfold worker_enter in Hstep. case_match; [|done]. injection Hstep as <-.
          simpl. by rewrite list_lookup_insert_ne.
        * injection Hstep as <-. unfold worker_leave. case_match; simpl;
            by rewrite list_lookup_insert_ne. }
  apply Hexec; [by apply init_inv|].
  simpl. rewrite create_tasks_lookup, Hi. simpl. by eexists.
Qed.

(** X8. One probe that raises, which only an interruption such as a
    cancellation can make it do, takes the whole scan with it: under no
    schedule does [run_scan] return a dictionary; whenever it is over it
    has raised. *)
Theorem raising_probe_aborts_the_scan host ports concurrency timeout env i p e sched r :
  ports !! i = Some p → (run_probe host p timeout (env i)).1 = Raise e →
  run_scan host ports concurrency timeout env sched = Some r →
  ∃ e', r = Raise e'.
Proof.
  intros Hi Hraise. unfold run_scan.
  destruct (Z.ltb_spec concurrency 0) as [|Hc]; [intros [= <-]; by eexists|].
  destruct (exec host timeout sched (scan_init ports concurrency env)) as [s|] eqn:Hexec;
    [|done].
  destruct (exec_never_finished host ports concurrency timeout env i p e sched s
              Hc Hi Hraise Hexec) as (t & Ht & Hnf).
  unfold gather. destruct (raised s) as [e'|]; [intros [= <-]; by eexists|].
  destruct (forallb is_finished (tasks s)) eqn:Hfin; [|done].
  exfalso. apply forallb_Forall in Hfin. rewrite Forall_lookup in Hfin.
  specialize (Hfin i t Ht). unfold is_finished in Hfin. by destruct (t_state t).
Qed.

Lemma raising_probe_aborts_the_scan_witness :
  ∃ e', (Raise CancelledError : outcome (gmap Z (pystr * pystr))) = Raise e'.
Proof.
  apply (raising_probe_aborts_the_scan example_host [22; 80]%Z 2 (Qmake 2 1)
           (λ i, if decide (i = 1) then failing_world CancelledError else silent_world)
           1 80%Z CancelledError (fifo_schedule 2)); reflexivity.
Defined.

(** * The port specification *)

(** ** Splitting and joining *)

Lemma py_split_nonempty sep s : py_split sep s ≠ [].
Proof. destruct s as [|c s]; simpl; [done|]. by repeat case_match. Qed.

Lemma py_join_cons sep part parts :
  parts ≠ [] → py_join sep (part :: parts) = part ++ sep ++ py_join sep parts.
Proof. by destruct parts. Qed.

Lemma py_join_split sep s : py_join [sep] (py_split sep s) = s.
Proof.
  induction s as [|c s IH]; simpl; [done|].
  destruct (N.eqb_spec c sep) as [->|Hne].
  - rewrite py_join_cons by apply py_split_nonempty. simpl. by rewrite IH.
  - pose proof (py_split_nonempty sep s) as Hnil.
    destruct (py_split sep s) as [|part parts]; [done|].
    destruct parts as [|part' parts]; simpl in *; by rewrite <- IH.
Qed.

Lemma py_split_no_sep sep s : Forall (λ part, sep ∉ part) (py_split sep s).
Proof.
  induction s as [|c s IH]; simpl.
  - repeat constructor. apply not_elem_of_nil.
  - destruct (N.eqb_spec c sep) as [->|Hne].
    + constructor; [apply not_elem_of_nil|done].
    + pose proof (py_split_nonempty sep s) as Hnil.
      destruct (py_split sep s) as [|part parts]; [done|].
      apply Forall_cons in IH as [Hpart Hparts]. constructor; [|done].
      rewrite not_elem_of_cons. split; [congruence|done].
Qed.

Lemma py_split_join sep parts :
  parts ≠ [] → Forall (λ part, sep ∉ part) parts →
  py_split sep (py_join [sep] parts) = parts.
Proof.
  intros Hne Hparts. induction Hparts as [|part parts Hpart _ IH]; [done|].
  destruct parts as [|part' parts].
  - simpl. clear IH Hne. induction part as [|c part IH]; simpl; [done|].
    apply not_elem_of_cons in Hpart as [Hc Hpart].
    destruct (N.eqb_spec c sep); [congruence|]. by rewrite IH.
  - rewrite py_join_cons by done. specialize (IH ltac:(done)).
    remember (py_join [sep] (part' :: parts)) as rest eqn:Hrest. clear Hrest.
    change ([sep] ++ rest) with (sep :: rest).
    induction part as [|c part IHp]; simpl.
    + rewrite N.eqb_refl. by rewrite IH.
    + apply not_elem_of_cons in Hpart as [Hc Hpart].
      destruct (N.eqb_spec c sep); [congruence|]. by rewrite IHp.
Qed.

Lemma py_split_snoc_sep sep s : py_split sep (s ++ [sep]) = py_split sep s ++ [[]].
Proof.
  induction s as [|c s IH]; simpl.
  - by rewrite N.eqb_refl.
  - rewrite IH. destruct (c =? sep)%N; [done|].
    pose proof (py_split_nonempty sep s) as Hnil.
    by destruct (py_split sep s).
Qed.

Lemma py_split_no_occurrence sep s : py_contains sep s = false → py_split sep s = [s].
Proof.
  induction s as [|c s IH]; [done|]. unfold py_contains. cbn [existsb py_split].
  intros [Hc Hs]%orb_false_iff. rewrite N.eqb_sym in Hc. rewrite Hc.
  by rewrite (IH Hs).
Qed.

(** X10. Splitting at a character and joining with it are inverse to
    each other: [sep.join(s.split(sep))] is [s], the parts of a split
    are never none and never hold the separator, and splitting the join
    of such parts gives the parts back. *)
Theorem split_join_round_trip sep :
  (∀ s, py_join [sep] (py_split sep s) = s
        ∧ py_split sep s ≠ []
        ∧ Forall (λ part, sep ∉ part) (py_split sep s))
  ∧ (∀ parts, parts ≠ [] → Forall (λ part, sep ∉ part) parts →
       py_split sep (py_join [sep] parts) = parts).
Proof.
  split.
  - intros s. split; [apply py_join_split|].
    split; [apply py_split_nonempty|apply py_split_no_sep].
  - apply py_split_join.
Qed.

Lemma split_join_round_trip_witness :
  py_split COMMA (py_join [COMMA] [lit "80"; []; lit "1-5"]) = [lit "80"; []; lit "1-5"].
Proof.
  apply (split_join_round_trip COMMA); [done|].
  by apply (bool_decide_unpack _).
Defined.

(** ** Sorting the set of ports *)

Lemma sorted_set_elem_of xs p : p ∈ sorted_set xs ↔ p ∈ xs.
Proof. unfold sorted_set. by rewrite merge_sort_Permutation, elem_of_remove_dups. Qed.

Lemma sorted_set_NoDup xs : NoDup (sorted_set xs).
Proof. unfold sorted_set. rewrite merge_sort_Permutation. apply NoDup_remove_dups. Qed.

Lemma StronglySorted_le_lt (l : list Z) :
  StronglySorted Z.le l → NoDup l → StronglySorted Z.lt l.
Proof.
  induction 1 as [|x l Hl IH Hx]; intros Hnd; [constructor|].
  apply NoDup_cons in Hnd as [Hnotin Hnd]. constructor; [by apply IH|].
  rewrite Forall_forall in Hx |- *. intros y Hy. specialize (Hx y Hy).
  assert (x ≠ y) by (intros ->; done). lia.
Qed.

Lemma sorted_set_ascending xs : StronglySorted Z.lt (sorted_set xs).
Proof.
  apply StronglySorted_le_lt; [|apply sorted_set_NoDup].
  unfold sorted_set. apply (StronglySorted_merge_sort _).
Qed.

(** ** The loop over the parts *)

Section PortSpecProofs.
Context (py_int : pystr → option Z).

Lemma py_range_elem_of a b p : p ∈ py_range a (b + 1) ↔ (a ≤ p ≤ b)%Z.
Proof. unfold py_range. rewrite elem_of_seqZ. lia. Qed.

Lemma collect_ports_elem_of acc parts ports p :
  collect_ports py_int acc parts = Ok ports →
  p ∈ ports ↔
    p ∈ acc
    ∨ ∃ part, part ∈ parts
        ∧ ((py_contains DASH part = false ∧ py_int part = Some p)
           ∨ (py_contains DASH part = true
              ∧ ∃ a b, py_int <$> py_split DASH part = [Some a; Some b]
                       ∧ (a ≤ p ≤ b)%Z)).
Proof.
  revert acc. induction parts as [|part rest IH]; intros acc; simpl.
  - intros [= <-]. split; [by left|]. intros [?|(part & Hin & _)]; [done|].
    by apply elem_of_nil in Hin.
  - destruct (py_contains DASH part) eqn:Hdash.
    + destruct (py_int <$> py_split DASH part) as [|[a|] [|[b|] [|? ?]]] eqn:Hsplit;
        try done.
      intros Hrest. rewrite (IH _ Hrest), elem_of_app, py_range_elem_of. split.
      * intros [[?|?]|(part' & Hin & Hpart')]; [by left| |].
        -- right. exists part. split; [apply list_elem_of_here|]. right. eauto.
        -- right. exists part'. split; [by apply list_elem_of_further|done].
      * intros [?|(part' & [->|Hin]%elem_of_cons & Hpart')]; [by left; left| |].
        -- destruct Hpart' as [[? _]|(_ & a' & b' & Heq & ?)]; [congruence|].
           rewrite Hsplit in Heq. injection Heq as <- <-. by left; right.
        -- right. by exists part'.
    + destruct (py_int part) as [n|] eqn:Hint; [|done].
      intros Hrest. rewrite (IH _ Hrest), elem_of_app, list_elem_of_singleton. split.
      * intros [[?| ->]|(part' & Hin & Hpart')]; [by left| |].
        -- right. exists part. split; [apply list_elem_of_here|]. by left.
        -- right. exists part'. split; [by apply list_elem_of_further|done].
      * intros [?|(part' & [->|Hin]%elem_of_cons & Hpart')]; [by left; left| |].
        -- destruct Hpart' as [[_ ?]|(? & _)]; [|congruence].
           left. right. congruence.
        -- right. by exists part'.
Qed.

(** One part that cannot be read makes the whole loop raise. *)
Lemma collect_ports_bad_part acc parts part :
  part ∈ parts →
  (if py_contains DASH part
   then ∀ a b, py_int <$> py_split DASH part ≠ [Some a; Some b]
   else py_int part = None) →
  collect_ports py_int acc parts = Raise ValueError.
Proof.
  intros Hin Hbad. revert acc.
  induction parts as [|part' rest IH]; intros acc; [by apply elem_of_nil in Hin|].
  apply elem_of_cons in Hin as [<-|Hin]; simpl.
  - destruct (py_contains DASH part).
    + destruct (py_int <$> py_split DASH part) as [|[a|] [|[b|] [|? ?]]] eqn:Hsplit;
        try done.
      by destruct (Hbad a b).
    + by rewrite Hbad.
  - specialize (IH Hin).
    repeat case_match; try done; apply IH.
Qed.
End PortSpecProofs.

(** X11. When the port specification is accepted, the list handed to
    [run_scan] is strictly ascending, hence free of duplicates, and it
    holds exactly the numbers that some comma-separated part denotes: a
    part without a dash denotes its integer, a part [a-b] denotes every
    integer from [a] to [b] inclusive, and none when [b < a]. *)
Theorem parse_ports_ascending_and_exact py_int spec ports :
  parse_ports py_int spec = Ok ports →
  StronglySorted Z.lt ports ∧ NoDup ports
  ∧ ∀ p, p ∈ ports ↔
      ∃ part, part ∈ py_split COMMA spec
        ∧ ((py_contains DASH part = false ∧ py_int part = Some p)
           ∨ (py_contains DASH part = true
              ∧ ∃ a b, py_int <$> py_split DASH part = [Some a; Some b]
                       ∧ (a ≤ p ≤ b)%Z)).
Proof.
  unfold parse_ports.
  destruct (collect_ports py_int [] (py_split COMMA spec)) as [raw|e] eqn:Hraw; [|done].
  intros [= <-]. split; [apply sorted_set_ascending|]. split; [apply sorted_set_NoDup|].
  intros p. rewrite sorted_set_elem_of, (collect_ports_elem_of _ _ _ _ _ Hraw).
  split; [|by right]. intros [Hnil|?]; [|done]. by apply elem_of_nil in Hnil.
Qed.

Lemma parse_ports_ascending_and_exact_witness :
  StronglySorted Z.lt [22; 80; 443; 1000; 1001; 1002]%Z
  ∧ NoDup [22; 80; 443; 1000; 1001; 1002]%Z.
Proof.
  destruct (parse_ports_ascending_and_exact ascii_int (lit "80,443,1000-1002,80, 22 ,5-3")
              [22; 80; 443; 1000; 1001; 1002]%Z) as (Hsorted & Hnd & _); [by vm_compute|].
  by split.
Defined.

(** X12. A port specification is never accepted, and [main] stops
    before any scan, as soon as one of its comma-separated parts is
    empty, starts or ends with a dash (so no negative port can be
    given), or holds more than one dash. *)
Theorem parse_ports_refuses py_int spec part ports :
  py_int [] = None → part ∈ py_split COMMA spec →
  part = [] ∨ head part = Some DASH ∨ last part = Some DASH
  ∨ 3 ≤ length (py_split DASH part) →
  parse_ports py_int spec ≠ Ok ports.
Proof.
  intros Hempty Hin Hbad. unfold parse_ports.
  rewrite (collect_ports_bad_part py_int [] _ part Hin); [done|].
  destruct Hbad as [->|[Hhead|[Hlast|Hmany]]].
  - simpl. done.
  - destruct part as [|c part]; [done|]. injection Hhead as ->.
    simpl. intros a b. by rewrite Hempty.
  - apply last_Some in Hlast as [front ->].
    assert (py_contains DASH (front ++ [DASH]) = true) as ->.
    { unfold py_contains. rewrite existsb_app. simpl. by rewrite orb_true_r. }
    intros a b Heq. rewrite py_split_snoc_sep, fmap_app in Heq. simpl in Heq.
    apply (f_equal last) in Heq. rewrite last_snoc, Hempty in Heq. done.
  - assert (py_contains DASH part = true) as ->.
    { destruct (py_contains DASH part) eqn:Hdash; [done|].
      rewrite (py_split_no_occurrence _ _ Hdash) in Hmany. simpl in Hmany. lia. }
    intros a b Heq. apply (f_equal length) in Heq. rewrite length_fmap in Heq.
    simpl in Heq. lia.
Qed.

Lemma parse_ports_refuses_witness :
  ascii_int [] = None
  ∧ parse_ports ascii_int (lit "80,-5") ≠ Ok [80]%Z
  ∧ parse_ports ascii_int (lit "1-2-3") ≠ Ok [1; 2; 3]%Z.
Proof.
  split; [reflexivity|]. split.
  - apply (parse_ports_refuses ascii_int (lit "80,-5") (lit "-5") _ eq_refl).
    + by apply (bool_decide_unpack _).
    + right. by left.
  - apply (parse_ports_refuses ascii_int (lit "1-2-3") (lit "1-2-3") _ eq_refl).
    + by apply (bool_decide_unpack _).
    + right. right. right. vm_compute. lia.
Defined.

(** * The merged report *)

(** ** The dictionary in Python's order *)

Lemma dict_store_to_map {V} (k : Z) (v : V) d :
  (list_to_map (dict_store k v d) : gmap Z V) = <[k:=v]> (list_to_map d).
Proof.
  induction d as [|[k' v'] d IH]; simpl; [done|].
  destruct (decide (k' = k)) as [->|Hne]; simpl.
  - by rewrite insert_insert_eq.
  - rewrite IH. by apply insert_insert_ne.
Qed.

Lemma dict_store_keys {V} (k : Z) (v : V) d :
  (dict_store k v d).*1 = if decide (k ∈ d.*1) then d.*1 else d.*1 ++ [k].
Proof.
  induction d as [|[k' v'] d IH]; [done|]. cbn [dict_store].
  destruct (decide (k' = k)) as [->|Hne]; rewrite !fmap_cons; cbn [fst].
  - rewrite decide_True; [done|]. apply list_elem_of_here.
  - rewrite IH. destruct (decide (k ∈ d.*1)) as [Hin|Hout].
    + rewrite decide_True; [done|]. by apply list_elem_of_further.
    + rewrite decide_False; [done|]. rewrite not_elem_of_cons. by split.
Qed.

Lemma dict_items_snoc {V} (stores : list (Z * V)) k v :
  dict_items (stores ++ [(k, v)]) = dict_store k v (dict_items stores).
Proof. unfold dict_items. by rewrite foldl_app. Qed.

Lemma dict_items_to_map {V} (stores : list (Z * V)) :
  (list_to_map (dict_items stores) : gmap Z V) = list_to_map (reverse stores).
Proof.
  induction stores as [|[k v] stores IH] using rev_ind; [done|].
  rewrite dict_items_snoc, dict_store_to_map, reverse_snoc, IH. done.
Qed.

Lemma dict_items_keys_NoDup {V} (stores : list (Z * V)) : NoDup (dict_items stores).*1.
Proof.
  induction stores as [|[k v] stores IH] using rev_ind; [constructor|].
  rewrite dict_items_snoc, dict_store_keys. case_decide; [done|].
  apply NoDup_app. split; [done|]. split; [|apply NoDup_singleton].
  intros x Hx ->%list_elem_of_singleton. done.
Qed.

Lemma dict_items_keys_elem_of {V} (stores : list (Z * V)) k :
  k ∈ (dict_items stores).*1 ↔ k ∈ stores.*1.
Proof.
  induction stores as [|[k' v] stores IH] using rev_ind; [done|].
  rewrite dict_items_snoc, dict_store_keys, fmap_app, elem_of_app. simpl.
  rewrite list_elem_of_singleton, <- IH. case_decide.
  - split; [by left|]. intros [?| ->]; done.
  - by rewrite elem_of_app, list_elem_of_singleton.
Qed.

(** Stores under distinct keys are listed as they were made. *)
Lemma dict_items_distinct {V} (stores : list (Z * V)) :
  NoDup stores.*1 → dict_items stores = stores.
Proof.
  induction stores as [|[k v] stores IH] using rev_ind; [done|].
  rewrite fmap_app. intros (Hnd & Hk & _)%NoDup_app.
  rewrite dict_items_snoc, IH by done. clear IH.
  assert (k ∉ stores.*1) as Hout.
  { intros Hin. apply (Hk k Hin). simpl. apply list_elem_of_here. }
  clear Hk Hnd. induction stores as [|[k' v'] stores IH]; simpl; [done|].
  simpl in Hout. apply not_elem_of_cons in Hout as [Hne Hout].
  rewrite decide_False by done. by rewrite IH.
Qed.

Lemma NoDup_keys_unique {V} (d : list (Z * V)) k v1 v2 :
  NoDup d.*1 → (k, v1) ∈ d → (k, v2) ∈ d → v1 = v2.
Proof.
  intros Hnd H1 H2.
  pose proof (elem_of_list_to_map_1 (M:=gmap Z) d k v1 Hnd H1) as Hl1.
  pose proof (elem_of_list_to_map_1 (M:=gmap Z) d k v2 Hnd H2) as Hl2.
  congruence.
Qed.

Lemma first_occurrences_elem_of keys k : k ∈ first_occurrences keys ↔ k ∈ keys.
Proof.
  induction keys as [|x keys IH]; simpl; [done|].
  rewrite !elem_of_cons, list_elem_of_filter, IH.
  cbv beta. destruct (decide (k = x)); tauto.
Qed.

Lemma first_occurrences_snoc keys k :
  first_occurrences (keys ++ [k])
  = if decide (k ∈ keys) then first_occurrences keys else first_occurrences keys ++ [k].
Proof.
  induction keys as [|x keys IH].
  - destruct (decide (k ∈ [])) as [Hin|_]; [|done]. by apply elem_of_nil in Hin.
  - cbn [app first_occurrences]. rewrite IH.
    destruct (decide (k ∈ keys)) as [Hin|Hout];
      destruct (decide (k ∈ x :: keys)) as [Hin'|Hout']; try done.
    + exfalso. apply Hout'. by apply list_elem_of_further.
    + apply elem_of_cons in Hin' as [->|?]; [|done].
      rewrite filter_app, filter_cons_False, filter_nil, app_nil_r; [done|].
      by intros ?.
    + apply not_elem_of_cons in Hout' as [Hne _].
      rewrite filter_app, filter_cons_True by done. by rewrite filter_nil.
Qed.

(** A dictionary lists its keys in the order of their first store. *)
Lemma dict_items_keys {V} (stores : list (Z * V)) :
  (dict_items stores).*1 = first_occurrences stores.*1.
Proof.
  induction stores as [|[k v] stores IH] using rev_ind; [done|].
  rewrite dict_items_snoc, dict_store_keys, fmap_app, IH. simpl.
  rewrite first_occurrences_snoc.
  destruct (decide (k ∈ stores.*1)) as [Hin|Hout].
  - rewrite decide_True; [done|]. by apply first_occurrences_elem_of.
  - rewrite decide_False; [done|]. by rewrite first_occurrences_elem_of.
Qed.

Lemma first_occurrences_NoDup keys : NoDup keys → first_occurrences keys = keys.
Proof.
  induction 1 as [|k keys Hk _ IH]; simpl; [done|]. rewrite IH. f_equal.
  apply filter_all. apply Forall_forall. by intros k' Hk' ->.
Qed.

(** ** The loop that merges *)

Lemma merge_rows_spec merged items nmap_info :
  merge_rows merged items nmap_info
  = merged ++ ((λ it, {| port := it.1; status := it.2.1;
                         service := default [] (nmap_info !! it.1);
                         version := take VERSION_WIDTH it.2.2 |}) <$> items).
Proof.
  revert merged. induction items as [|[p [s b]] items IH]; intros merged; simpl.
  - by rewrite app_nil_r.
  - rewrite IH, <- app_assoc. done.
Qed.

(** X14. When a scan is over, the merged report has one row for every
    key of the dictionary, in the order in which the ports were first
    stored, which for distinct ports is the order in which the probes
    completed: its ports are distinct and are exactly the requested ones;
    every row carries the status stored under its port, the first 120
    characters of the banner stored there, and the service that the scan
    tool gave for the port, or the empty string when it gave none. *)
Theorem merged_report_of_scan host ports concurrency timeout env sched s nmap_info :
  (0 ≤ concurrency)%Z →
  exec host timeout sched (scan_init ports concurrency env) = Some s →
  gather s = Some (Ok tt) →
  let merged := merge_rows [] (results_items s) nmap_info in
  port <$> merged = first_occurrences (writes s).*1
  ∧ (NoDup ports → port <$> merged = (writes s).*1)
  ∧ NoDup (port <$> merged)
  ∧ (∀ p, p ∈ port <$> merged ↔ p ∈ ports)
  ∧ length merged = size (results s)
  ∧ ∀ item, item ∈ merged →
      ∃ banner, results s !! port item = Some (status item, banner)
                ∧ version item = take 120 banner
                ∧ length (version item) ≤ 120
                ∧ service item = default [] (nmap_info !! port item).
Proof.
  intros Hc Hexec Hg merged.
  assert (scan_inv host ports concurrency timeout env s) as Hinv.
  { eapply exec_inv; [by apply init_inv|done]. }
  destruct (scan_final _ _ _ _ _ s Hinv Hg) as [Hperm Hdom].
  assert (port <$> merged = (results_items s).*1) as Hports.
  { unfold merged. rewrite merge_rows_spec. simpl. rewrite <- list_fmap_compose.
    by apply list_fmap_ext. }
  assert (results s = list_to_map (results_items s)) as Hres.
  { unfold results_items. by rewrite dict_items_to_map, (inv_results _ _ _ _ _ _ Hinv). }
  split; [rewrite Hports; apply dict_items_keys|]. split.
  { intros Hnd. rewrite Hports. unfold results_items.
    rewrite dict_items_keys. apply first_occurrences_NoDup. by rewrite Hperm. }
  split; [rewrite Hports; apply dict_items_keys_NoDup|]. split; [|split].
  - intros p. rewrite Hports. unfold results_items.
    by rewrite dict_items_keys_elem_of, Hperm.
  - rewrite <- (length_fmap port), Hports, Hres.
    rewrite <- size_dom, dom_list_to_map_L, size_list_to_set; [done|].
    apply dict_items_keys_NoDup.
  - intros item. unfold merged. rewrite merge_rows_spec. simpl.
    intros ([p [st b]] & -> & Hin)%list_elem_of_fmap. simpl. exists b.
    split; [|split; [done|split; [|done]]].
    + rewrite Hres. apply elem_of_list_to_map_1; [|done]. apply dict_items_keys_NoDup.
    + rewrite length_take. unfold VERSION_WIDTH. lia.
Qed.

Lemma merged_report_of_scan_witness :
  ∃ s, exec example_host (Qmake 2 1) [0; 1; 1; 0]
         (scan_init [80; 22]%Z 2
            (λ i, if decide (i = 0) then accepting_world (Ok scenario_b_data)
                  else silent_world)) = Some s
       ∧ port <$> merge_rows [] (results_items s) ∅ = [22; 80]%Z.
Proof.
  eexists. split; [reflexivity|].
  match goal with
  | |- port <$> merge_rows [] (results_items ?s) ∅ = _ =>
      pose proof (merged_report_of_scan example_host [80; 22]%Z 2 (Qmake 2 1)
                    (λ i, if decide (i = 0) then accepting_world (Ok scenario_b_data)
                          else silent_world)
                    [0; 1; 1; 0] s ∅ ltac:(lia) eq_refl eq_refl) as [Horder _]
  end.
  exact (eq_trans Horder eq_refl).
Defined.

(** ** The table of a merged report *)

Lemma table_rows_shown str_lower merged_ports :
  table_rows str_lower merged_ports
  = (λ item, (port item, status item, service item, version item))
    <$> filter (λ item, row_shown str_lower item = true) merged_ports.
Proof.
  unfold table_rows, print_table. rewrite collect_rows_spec. simpl. by case_match.
Qed.

Lemma row_shown_no_service str_lower item :
  service item = [] → row_shown str_lower item = true ↔ status item = OPEN.
Proof.
  intros Hsvc. unfold row_shown, pystr_eqb. rewrite Hsvc. simpl.
  rewrite andb_false_r, orb_false_r. apply bool_decide_eq_true.
Qed.

(** X15. Without the scan tool every service is the empty string, and
    then the table lists the OPEN ports and nothing else, whatever
    [str.lower] does: a FILTERED port is never shown. *)
Theorem table_without_nmap str_lower items :
  table_rows str_lower (merge_rows [] items ∅)
  = (λ it, (it.1, OPEN, [], take 120 it.2.2)) <$> filter (λ it, it.2.1 = OPEN) items.
Proof.
  rewrite table_rows_shown, merge_rows_spec. simpl.
  induction items as [|[p [s b]] items IH]; [done|].
  rewrite fmap_cons, !filter_cons. cbn [fst snd].
  pose proof (row_shown_no_service str_lower
                {| port := p; status := s; service := default [] ((∅ : gmap Z pystr) !! p);
                   version := take VERSION_WIDTH b |}) as Hshown.
  rewrite lookup_empty in Hshown |- *. simpl in Hshown.
  destruct (decide (s = OPEN)) as [->|Hne].
  - rewrite decide_True by (by apply Hshown). rewrite !fmap_cons. simpl. by rewrite IH.
  - rewrite decide_False by (by rewrite Hshown). exact IH.
Qed.

Lemma table_without_nmap_witness :
  table_rows ascii_lower
    (merge_rows [] [(22%Z, (OPEN, lit "SSH-2.0")); (25%Z, (FILTERED, []));
                    (23%Z, (CLOSED, []))] ∅)
  = [(22%Z, OPEN, [], lit "SSH-2.0")].
Proof.
  rewrite (table_without_nmap ascii_lower). reflexivity.
Defined.

(** X16. A scanned port has a row in the table exactly when the probe
    found it OPEN, or found it FILTERED and the scan tool has an entry
    for it that is neither empty nor, lower-cased, the placeholder
    "(unknown)". In particular a CLOSED port is never listed, and an
    OPEN port is listed even when the scan tool knows nothing of it. *)
Theorem port_listed_iff str_lower items nmap_info p st banner :
  (∀ s, str_lower s = [] → s = []) → NoDup items.*1 → (p, (st, banner)) ∈ items →
  (∃ row, row ∈ table_rows str_lower (merge_rows [] items nmap_info) ∧ row.1.1.1 = p)
  ↔ st = OPEN
    ∨ (st = FILTERED
       ∧ ∃ svc, nmap_info !! p = Some svc ∧ svc ≠ [] ∧ str_lower svc ≠ UNKNOWN).
Proof.
  intros Hlower Hnd Hin. rewrite table_rows_shown, merge_rows_spec. simpl. split.
  - intros (row & (item & -> & [Hshown Hitem]%list_elem_of_filter)%list_elem_of_fmap & Hp).
    apply list_elem_of_fmap in Hitem as ([p' [st' b']] & -> & Hin'). simpl in *. subst p'.
    assert ((st', b') = (st, banner)) as [= -> ->].
    { by eapply NoDup_keys_unique. }
    apply row_shown_spec in Hshown; [|done].
    destruct Hshown as [?|(? & Hsvc & Hunk)]; [by left|]. simpl in *.
    right. split; [done|]. destruct (nmap_info !! p) as [svc|]; [|done]. by exists svc.
  - intros Hst.
    exists (p, st, default [] (nmap_info !! p), take VERSION_WIDTH banner).
    split; [|done]. apply list_elem_of_fmap.
    exists {| port := p; status := st; service := default [] (nmap_info !! p);
              version := take VERSION_WIDTH banner |}.
    split; [done|]. apply list_elem_of_filter. split.
    + apply row_shown_spec; [done|]. simpl.
      destruct Hst as [?|(? & svc & -> & ? & ?)]; [by left|by right].
    + apply list_elem_of_fmap. by exists (p, (st, banner)).
Qed.

Lemma port_listed_iff_witness :
  NoDup [22; 25]%Z
  ∧ ∃ row,
      row ∈ table_rows ascii_lower
              (merge_rows [] [(22%Z, (OPEN, lit "SSH-2.0")); (25%Z, (FILTERED, []))]
                 {[ 25%Z := lit "filtered" ]})
      ∧ row.1.1.1 = 25%Z.
Proof.
  assert (NoDup [22; 25]%Z) as Hnd by (by apply (bool_decide_unpack _)).
  split; [done|].
  apply (port_listed_iff ascii_lower _ _ 25%Z FILTERED []).
  - intros s Hs. by destruct s.
  - exact Hnd.
  - by apply (bool_decide_unpack _).
  - right. split; [done|]. exists (lit "filtered"). by split; [|split].
Defined.

Lemma merge_rows_ports items nmap_info :
  port <$> merge_rows [] items nmap_info = items.*1.
Proof.
  rewrite merge_rows_spec. simpl. rewrite <- list_fmap_compose. by apply list_fmap_ext.
Qed.

(** X13. The ports that [main] reads from the command line are
    distinct, so no worker overwrites the result of another: when the
    scan is over the dictionary has as many entries as ports were
    parsed, and the merged report has one row for each of them. *)
Theorem main_reports_every_parsed_port py_int spec host ports concurrency timeout env
    sched s nmap_info :
  parse_ports py_int spec = Ok ports → (0 ≤ concurrency)%Z →
  exec host timeout sched (scan_init ports concurrency env) = Some s →
  gather s = Some (Ok tt) →
  size (results s) = length ports
  ∧ port <$> merge_rows [] (results_items s) nmap_info ≡ₚ ports.
Proof.
  intros Hparse Hc Hexec Hg.
  assert (NoDup ports) as Hnd.
  { unfold parse_ports in Hparse.
    destruct (collect_ports py_int [] (py_split COMMA spec)); [|done].
    injection Hparse as <-. apply sorted_set_NoDup. }
  assert (scan_inv host ports concurrency timeout env s) as Hinv.
  { eapply exec_inv; [by apply init_inv|done]. }
  destruct (scan_final _ _ _ _ _ s Hinv Hg) as [Hperm Hdom]. split.
  - by rewrite <- size_dom, Hdom, size_list_to_set.
  - rewrite merge_rows_ports. apply NoDup_Permutation; [apply dict_items_keys_NoDup|done|].
    intros p. unfold results_items. by rewrite dict_items_keys_elem_of, Hperm.
Qed.

Lemma main_reports_every_parsed_port_witness :
  ∃ s, exec example_host (Qmake 2 1) (fifo_schedule 3)
         (scan_init [22; 80; 81]%Z 200 (λ _, silent_world)) = Some s
       ∧ size (results s) = 3
       ∧ port <$> merge_rows [] (results_items s) ∅ ≡ₚ [22; 80; 81]%Z.
Proof.
  eexists. split; [reflexivity|].
  match goal with
  | |- size (results ?s) = _ ∧ _ =>
      apply (main_reports_every_parsed_port ascii_int (lit "80-81,22,80") example_host
               [22; 80; 81]%Z 200 (Qmake 2 1) (λ _, silent_world) (fifo_schedule 3) s ∅)
  end; [by vm_compute|lia|reflexivity|reflexivity].
Defined.

(** * The output of the scan tool *)

Section NmapParseProofs.
Context (py_int : pystr → option Z).

(** ** The two loops are one loop over the visited [port] elements *)

Lemma parse_port_list_app parsed els1 els2 :
  parse_port_list py_int parsed (els1 ++ els2)
  = match parse_port_list py_int parsed els1 with
    | Parsed parsed' => parse_port_list py_int parsed' els2
    | Failed_int e => Failed_int e
    end.
Proof.
  revert parsed. induction els1 as [|el els1 IH]; intros parsed; simpl; [done|].
  by destruct (parse_port py_int parsed el).
Qed.

Lemma parse_host_list_flat parsed hosts :
  parse_host_list py_int parsed hosts
  = parse_port_list py_int parsed
      (hosts ≫= (λ host, match xml_find (lit "ports") host with
                          | Some ports_el => xml_findall (lit "port") ports_el
                          | None => []
                          end)).
Proof.
  revert parsed. induction hosts as [|host hosts IH]; intros parsed; [done|].
  rewrite bind_cons, parse_port_list_app. cbn [parse_host_list].
  destruct (xml_find (lit "ports") host) as [ports_el|]; [|apply IH].
  destruct (parse_port_list py_int parsed _) as [parsed'|e]; [apply IH|done].
Qed.

Lemma parse_nmap_root_flat root :
  parse_nmap_root py_int root = parse_port_list py_int ∅ (nmap_port_elements root).
Proof. apply parse_host_list_flat. Qed.

(** ** When the parse raises *)

Lemma parse_port_parsed_iff parsed el :
  (∃ parsed', parse_port py_int parsed el = Parsed parsed')
  ↔ xml_find (lit "state") el = None
    ∨ ∃ text n, xml_get (lit "portid") el = Some text ∧ py_int text = Some n.
Proof.
  unfold parse_port. destruct (xml_find (lit "state") el) as [state_el|].
  - destruct (xml_get (lit "portid") el) as [text|].
    + destruct (py_int text) as [n|] eqn:Hint.
      * split; [intros _; right; eauto|]. intros _. case_decide; eauto.
      * split; [by intros [? ?]|]. intros [?|(text' & n & [= <-] & ?)]; [done|congruence].
    + split; [by intros [? ?]|]. by intros [?|(text' & n & ? & ?)].
  - split; [by left|eauto].
Qed.

Lemma parse_port_list_parsed_iff parsed els :
  (∃ parsed', parse_port_list py_int parsed els = Parsed parsed')
  ↔ Forall (λ el, xml_find (lit "state") el = None
                  ∨ ∃ text n, xml_get (lit "portid") el = Some text
                              ∧ py_int text = Some n) els.
Proof.
  revert parsed. induction els as [|el els IH]; intros parsed; simpl.
  - split; [constructor|eauto].
  - rewrite Forall_cons, <- (parse_port_parsed_iff parsed el).
    destruct (parse_port py_int parsed el) as [parsed1|e].
    + rewrite IH. split; [by split; [eauto|]|by intros [_ ?]].
    + split; [by intros [? ?]|]. by intros [[? ?] _].
Qed.

(** ** What the parse stores *)

Lemma py_join_truthy sep parts :
  Forall (λ p, truthy p = true) parts → py_join sep parts = [] → parts = [].
Proof.
  intros Hparts. destruct Hparts as [|p parts Hp Hparts]; [done|].
  destruct p as [|c p]; [done|]. by destruct parts.
Qed.

Lemma service_description_empty service_el :
  service_description service_el = []
  ↔ ∀ el, service_el = Some el →
      Forall (λ key, or_empty (xml_get key el) = [])
        [lit "name"; lit "product"; lit "version"; lit "extrainfo"].
Proof.
  destruct service_el as [el|]; simpl; [|by split].
  split.
  - intros Hjoin el' [= <-]. apply py_join_truthy in Hjoin.
    + rewrite !Forall_cons. rewrite !filter_cons in Hjoin.
      repeat split; try constructor.
      all: repeat match goal with
             | H : context [decide (truthy ?x = true)] |- _ =>
                 destruct (decide (truthy x = true)); [done|]
             end.
      all: match goal with
           | H : ¬ truthy ?x = true |- ?x = [] => by destruct x
           end.
    + apply Forall_forall. by intros p [? _]%list_elem_of_filter.
  - intros Hall. specialize (Hall el eq_refl).
    rewrite !Forall_cons in Hall. destruct Hall as (-> & -> & -> & -> & _). done.
Qed.

(** The entry under a key is the one of the last visited element that
    stores under it; an entry that was there before the loop survives
    only when no visited element stores under its key. *)
Lemma parse_port_list_entries parsed els parsed' n v :
  parse_port_list py_int parsed els = Parsed parsed' → parsed' !! n = Some v →
  (parsed !! n = Some v
   ∧ ∀ el text, el ∈ els → is_Some (xml_find (lit "state") el) →
       xml_get (lit "portid") el = Some text → py_int text ≠ Some n)
  ∨ ∃ before el after state_el text,
      els = before ++ el :: after
      ∧ xml_find (lit "state") el = Some state_el
      ∧ xml_get (lit "portid") el = Some text ∧ py_int text = Some n
      ∧ (∀ el' text', el' ∈ after → is_Some (xml_find (lit "state") el') →
           xml_get (lit "portid") el' = Some text' → py_int text' ≠ Some n)
      ∧ ((xml_get (lit "state") state_el ≠ Some (lit "open")
          ∧ v = xml_get (lit "state") state_el)
         ∨ (xml_get (lit "state") state_el = Some (lit "open")
            ∧ ∃ d, v = Some d ∧ d ≠ []
                   ∧ d = if truthy (service_description (xml_find (lit "service") el))
                         then service_description (xml_find (lit "service") el)
                         else UNKNOWN)).
Proof.
  revert parsed. induction els as [|el els IH]; intros parsed; simpl.
  - intros [= <-] ?. left. split; [done|]. intros el text Hin. by apply elem_of_nil in Hin.
  - destruct (parse_port py_int parsed el) as [parsed1|e] eqn:Hport; [|done].
    intros Hrest Hv.
    destruct (IH _ Hrest Hv)
      as [[Hold Hnone]|(before & el' & after & st & text & -> & Hrest')].
    + unfold parse_port in Hport.
      destruct (xml_find (lit "state") el) as [state_el|] eqn:Hstate.
      2: { injection Hport as <-. left. split; [done|].
           intros el' text [->|Hin]%elem_of_cons [? Hst]; [congruence|].
           apply Hnone; [done|by eexists]. }
      destruct (xml_get (lit "portid") el) as [text|] eqn:Hportid; [|done].
      destruct (py_int text) as [m|] eqn:Hint; [|done].
      destruct (decide (m = n)) as [->|Hne].
      * right. exists [], el, els, state_el, text.
        split; [done|]. do 3 (split; [done|]). split; [done|].
        case_decide as Hopen; injection Hport as <-;
          rewrite lookup_insert_eq in Hold; injection Hold as <-.
        -- by left.
        -- right. split; [done|].
           set (d := service_description (xml_find (lit "service") el)).
           exists (if truthy d then d else UNKNOWN).
           split; [done|]. split; [|done]. by destruct d.
      * left. split.
        -- case_decide; injection Hport as <-; by rewrite lookup_insert_ne in Hold.
        -- intros el' text' [->|Hin]%elem_of_cons Hst Hportid'; [|by eapply Hnone].
           rewrite Hportid in Hportid'. injection Hportid' as <-.
           rewrite Hint. by intros [= ?].
    + right. by exists (el :: before), el', after, st, text.
Qed.

Lemma parse_port_list_keys parsed els parsed' el state_el text n :
  parse_port_list py_int parsed els = Parsed parsed' →
  el ∈ els → xml_find (lit "state") el = Some state_el →
  xml_get (lit "portid") el = Some text → py_int text = Some n →
  is_Some (parsed' !! n).
Proof.
  assert (∀ els parsed parsed', parse_port_list py_int parsed els = Parsed parsed' →
            is_Some (parsed !! n) → is_Some (parsed' !! n)) as Hkeep.
  { clear. induction els as [|el els IH]; intros parsed parsed'; simpl.
    - by intros [= <-].
    - destruct (parse_port py_int parsed el) as [parsed1|e] eqn:Hport; [|done].
      intros Hrest Hn. apply (IH _ _ Hrest). unfold parse_port in Hport.
      repeat case_match; simplify_eq; try done.
      all: apply lookup_insert_is_Some'; by right. }
  revert parsed. induction els as [|el' els IH]; intros parsed Hparse Hin;
    [by apply elem_of_nil in Hin|].
  intros Hstate Hportid Hint. simpl in Hparse.
  destruct (parse_port py_int parsed el') as [parsed1|e] eqn:Hport; [|done].
  apply elem_of_cons in Hin as [<-|Hin]; [|by eapply IH].
  apply (Hkeep _ _ _ Hparse). unfold parse_port in Hport.
  rewrite Hstate, Hportid, Hint in Hport.
  case_decide; injection Hport as <-; rewrite lookup_insert_eq; by eexists.
Qed.
End NmapParseProofs.

Lemma parse_port_list_failed py_int parsed els e :
  parse_port_list py_int parsed els = Failed_int e →
  ∃ el, el ∈ els ∧ is_Some (xml_find (lit "state") el)
        ∧ ((e = IntTypeError ∧ xml_get (lit "portid") el = None)
           ∨ (e = IntValueError
              ∧ ∃ text, xml_get (lit "portid") el = Some text ∧ py_int text = None)).
Proof.
  revert parsed. induction els as [|el els IH]; intros parsed; simpl; [done|].
  destruct (parse_port py_int parsed el) as [parsed1|e'] eqn:Hport.
  - intros (el' & Hin & Hel')%IH. exists el'. split; [by apply list_elem_of_further|done].
  - intros [= ->]. exists el. split; [apply list_elem_of_here|].
    unfold parse_port in Hport.
    destruct (xml_find (lit "state") el) as [state_el|]; [|done]. split; [by eexists|].
    destruct (xml_get (lit "portid") el) as [text|]; [|injection Hport as <-; by left].
    destruct (py_int text) eqn:Hint; [by case_decide|].
    injection Hport as <-. right. split; [done|]. by exists text.
Qed.

(** X17. [run_nmap_and_parse] returns exactly when the scan tool is not
    installed, or when the [print] of the debug mode raises nothing,
    [subprocess.run] completes, and what the tool wrote is empty, or is
    refused by the XML parser with [ParseError], or is a tree in which
    every visited [port] element either has no [state] child or has a
    [portid] that reads as an integer. Nothing else is caught: an
    exception of [print], of [subprocess.run] (the program cannot be
    started, its output cannot be decoded) or of the XML parser leaves
    the function as it is, and so does the [TypeError] or [ValueError]
    of [int] on a [portid] that is missing or is no integer. A [port]
    element without a [state] child is skipped before its number is
    read. When the tool is missing the result is the empty mapping with
    an empty error text and no XML; when the tool is silent or its
    output is refused with [ParseError], the mapping is empty and the
    two texts are those of the process. *)
Theorem run_nmap_and_parse_raises_iff py_int debug run :
  ((∃ r, run_nmap_and_parse py_int debug run = Returned r)
   ↔ which_nmap run = None
     ∨ ((debug = true → debug_print run = None)
        ∧ ∃ stdout stderr,
            subprocess_run run = Completed stdout stderr
            ∧ (stdout = []
               ∨ match fromstring run stdout with
                 | ParseError => True
                 | FromstringRaises _ => False
                 | Tree root =>
                     Forall (λ el, xml_find (lit "state") el = None
                                   ∨ ∃ text n, xml_get (lit "portid") el = Some text
                                               ∧ py_int text = Some n)
                       (nmap_port_elements root)
                 end)))
  ∧ (∀ e, run_nmap_and_parse py_int debug run = Raised_int e →
       ∃ stdout stderr root el,
         subprocess_run run = Completed stdout stderr
         ∧ fromstring run stdout = Tree root
         ∧ el ∈ nmap_port_elements root ∧ is_Some (xml_find (lit "state") el)
         ∧ ((e = IntTypeError ∧ xml_get (lit "portid") el = None)
            ∨ (e = IntValueError
               ∧ ∃ text, xml_get (lit "portid") el = Some text ∧ py_int text = None)))
  ∧ (∀ cls, run_nmap_and_parse py_int debug run = Raised cls
       ↔ is_Some (which_nmap run)
         ∧ ((debug = true ∧ debug_print run = Some cls)
            ∨ ((debug = true → debug_print run = None)
               ∧ (subprocess_run run = RunRaises cls
                  ∨ ∃ stdout stderr,
                      subprocess_run run = Completed stdout stderr ∧ stdout ≠ []
                      ∧ fromstring run stdout = FromstringRaises cls))))
  ∧ (which_nmap run = None → run_nmap_and_parse py_int debug run = Returned (∅, [], None))
  ∧ (∀ stdout stderr,
       is_Some (which_nmap run) → (debug = true → debug_print run = None) →
       subprocess_run run = Completed stdout stderr →
       stdout = [] ∨ fromstring run stdout = ParseError →
       run_nmap_and_parse py_int debug run = Returned (∅, stderr, Some stdout)).
Proof.
  unfold run_nmap_and_parse. destruct (which_nmap run) as [path|].
  2: { split; [|split; [|split; [|split]]].
       - split; [by left|by eauto].
       - done.
       - intros cls. split; [done|]. by intros [[? [=]] _].
       - done.
       - by intros ? ? [? [=]]. }
  assert (is_Some (Some path)) as Hpath by (by eexists).
  destruct (if debug then debug_print run else None) as [cls|] eqn:Hprint.
  { assert (debug = true ∧ debug_print run = Some cls) as [-> Hcls].
    { destruct debug; [done|discriminate]. }
    split; [|split; [|split; [|split]]].
    - split; [by intros [? ?]|]. intros [?|[Hnone _]]; [done|].
      rewrite Hnone in Hcls; done.
    - done.
    - intros cls'. split.
      + intros [= <-]. split; [done|]. by left.
      + intros [_ [[_ ?]|[Hnone _]]]; [congruence|]. rewrite Hnone in Hcls; done.
    - done.
    - intros ? ? _ Hnone. rewrite Hnone in Hcls; done. }
  assert (debug = true → debug_print run = None) as Hquiet.
  { by intros ->. }
  assert (∀ cls, ¬ (debug = true ∧ debug_print run = Some cls)) as Hnoprint.
  { intros cls [Hd Hcls]. rewrite (Hquiet Hd) in Hcls. done. }
  destruct (subprocess_run run) as [stdout stderr|cls].
  2: { split; [|split; [|split; [|split]]].
       - split; [by intros [? ?]|]. by intros [?|[_ (? & ? & ? & _)]].
       - done.
       - intros cls'. split.
         + intros [= <-]. split; [done|]. right. split; [done|]. by left.
         + intros [_ [Hp|[_ [[= ->]|(? & ? & ? & _)]]]];
             [by apply Hnoprint in Hp|done..].
       - done.
       - done. }
  destruct stdout as [|c out]; cbn [truthy].
  { split; [|split; [|split; [|split]]].
    - split; [|by eauto]. intros _. right. split; [done|].
      exists [], stderr. split; [done|by left].
    - done.
    - intros cls'. split; [done|].
      intros [_ [Hp|[_ [?|(? & ? & [= <- <-] & ? & _)]]]];
        [by apply Hnoprint in Hp|done..].
    - done.
    - by intros ? ? _ _ [= <- <-] _. }
  destruct (fromstring run (c :: out)) as [root| |cls] eqn:Hfrom.
  - rewrite parse_nmap_root_flat.
    pose proof (parse_port_list_parsed_iff py_int ∅ (nmap_port_elements root)) as Hiff.
    destruct (parse_port_list py_int ∅ (nmap_port_elements root)) as [parsed|e] eqn:Hparse.
    + split; [|split; [|split; [|split]]].
      * split; [|by eauto]. intros _. right. split; [done|].
        exists (c :: out), stderr. split; [done|].
        right. rewrite Hfrom. apply Hiff. by eexists.
      * done.
      * intros cls'. split; [done|].
        intros [_ [Hp|[_ [?|(? & ? & [= <- <-] & _ & ?)]]]];
          [by apply Hnoprint in Hp|done|congruence].
      * done.
      * intros ? ? _ _ [= <- <-] [?|?]; [done|congruence].
    + split; [|split; [|split; [|split]]].
      * split; [by intros [? ?]|].
        intros [?|[_ (? & ? & [= <- <-] & [?|Hall])]]; [done..|].
        rewrite Hfrom in Hall. apply Hiff in Hall as [? ?]. done.
      * intros e' [= <-]. exists (c :: out), stderr, root.
        destruct (parse_port_list_failed _ _ _ _ Hparse) as (el & ? & ? & ?).
        by exists el.
      * intros cls'. split; [done|].
        intros [_ [Hp|[_ [?|(? & ? & [= <- <-] & _ & ?)]]]];
          [by apply Hnoprint in Hp|done|congruence].
      * done.
      * intros ? ? _ _ [= <- <-] [?|?]; [done|congruence].
  - split; [|split; [|split; [|split]]].
    + split; [|by eauto]. intros _. right. split; [done|].
      exists (c :: out), stderr. split; [done|]. right. by rewrite Hfrom.
    + done.
    + intros cls'. split; [done|].
      intros [_ [Hp|[_ [?|(? & ? & [= <- <-] & _ & ?)]]]];
        [by apply Hnoprint in Hp|done|congruence].
    + done.
    + by intros ? ? _ _ [= <- <-] _.
  - split; [|split; [|split; [|split]]].
    + split; [by intros [? ?]|].
      intros [?|[_ (? & ? & [= <- <-] & [?|Hall])]]; [done..|]. by rewrite Hfrom in Hall.
    + done.
    + intros cls'. split.
      * intros [= <-]. split; [done|]. right. split; [done|]. right.
        by exists (c :: out), stderr.
      * intros [_ [Hp|[_ [?|(? & ? & [= <- <-] & _ & ?)]]]];
          [by apply Hnoprint in Hp|done|congruence].
    + done.
    + intros ? ? _ _ [= <- <-] [?|?]; [done|congruence].
Qed.

Lemma run_nmap_and_parse_raises_iff_witness :
  run_nmap_and_parse ascii_int false (example_nmap_run broken_nmap_root)
  = Raised_int IntValueError
  ∧ run_nmap_and_parse ascii_int false undecodable_nmap_run = Raised "UnicodeDecodeError"
  ∧ run_nmap_and_parse ascii_int false unstartable_nmap_run = Raised "PermissionError".
Proof.
  split; [|split].
  - destruct (run_nmap_and_parse ascii_int false (example_nmap_run broken_nmap_root))
      as [r|cls|e] eqn:Hrun; [by vm_compute in Hrun..|].
    destruct (run_nmap_and_parse_raises_iff ascii_int false
                (example_nmap_run broken_nmap_root)) as (_ & Hfail & _).
    destruct (Hfail e Hrun)
      as (stdout & stderr & root & el & [= <- <-] & [= <-] & Hin & _
          & [[_ Hnone]|[-> _]]); [|done].
    exfalso. revert Hin Hnone. vm_compute. intros Hin.
    repeat (apply elem_of_cons in Hin as [->|Hin]; [done|]). by apply elem_of_nil in Hin.
  - apply (run_nmap_and_parse_raises_iff ascii_int false undecodable_nmap_run).
    split; [by eexists|]. right. split; [done|]. by left.
  - apply (run_nmap_and_parse_raises_iff ascii_int false unstartable_nmap_run).
    split; [by eexists|]. right. split; [done|]. by left.
Defined.

(** X18. In the mapping that the parse returns, the keys are exactly the
    numbers of the visited [port] elements that have a [state] child.
    The value under a key is the one of the last visited element with a
    [state] child whose [portid] reads as that key: it is the [state]
    attribute of that element when that is not "open", and otherwise its
    description, which is never empty, the placeholder "(unknown)"
    standing in when the element has no [service] child or when the
    name, product, version and extra information of that child are all
    missing or empty. *)
Theorem parse_nmap_root_entries py_int root parsed :
  parse_nmap_root py_int root = Parsed parsed →
  (∀ n, is_Some (parsed !! n)
        ↔ ∃ el text, el ∈ nmap_port_elements root ∧ is_Some (xml_find (lit "state") el)
                     ∧ xml_get (lit "portid") el = Some text ∧ py_int text = Some n)
  ∧ (∀ n v, parsed !! n = Some v →
       ∃ before el after state_el text,
         nmap_port_elements root = before ++ el :: after
         ∧ xml_find (lit "state") el = Some state_el
         ∧ xml_get (lit "portid") el = Some text ∧ py_int text = Some n
         ∧ (∀ el' text', el' ∈ after → is_Some (xml_find (lit "state") el') →
              xml_get (lit "portid") el' = Some text' → py_int text' ≠ Some n)
         ∧ ((xml_get (lit "state") state_el ≠ Some (lit "open")
             ∧ v = xml_get (lit "state") state_el)
            ∨ (xml_get (lit "state") state_el = Some (lit "open")
               ∧ ∃ d, v = Some d ∧ d ≠ []
                      ∧ (d = service_description (xml_find (lit "service") el)
                         ∨ d = UNKNOWN
                           ∧ ∀ service_el, xml_find (lit "service") el = Some service_el →
                               Forall (λ key, or_empty (xml_get key service_el) = [])
                                 [lit "name"; lit "product"; lit "version";
                                  lit "extrainfo"])))).
Proof.
  rewrite parse_nmap_root_flat. intros Hparse. split.
  - intros n. split.
    + intros [v Hv].
      destruct (parse_port_list_entries _ _ _ _ _ _ Hparse Hv)
        as [[Hnone _]|(before & el & after & state_el & text & Hels & Hstate & Hportid
                       & Hint & _)];
        [by rewrite lookup_empty in Hnone|].
      exists el, text. rewrite Hels, Hstate. split; [|done].
      apply elem_of_app. right. apply list_elem_of_here.
    + intros (el & text & Hin & [state_el Hstate] & Hportid & Hint).
      by eapply parse_port_list_keys.
  - intros n v Hv.
    destruct (parse_port_list_entries _ _ _ _ _ _ Hparse Hv)
      as [[Hnone _]|(before & el & after & state_el & text & Hels & Hstate & Hportid
                     & Hint & Hlast & Hvalue)];
      [by rewrite lookup_empty in Hnone|].
    exists before, el, after, state_el, text. do 5 (split; [done|]).
    destruct Hvalue as [?|(Hopen & d & -> & Hd & Hdesc)]; [by left|].
    right. split; [done|]. exists d. do 2 (split; [done|]).
    destruct (truthy (service_description (xml_find (lit "service") el))) eqn:Htruthy;
      [by left|].
    right. split; [done|]. apply service_description_empty.
    by destruct (service_description (xml_find (lit "service") el)).
Qed.

Lemma parse_nmap_root_entries_witness :
  parse_nmap_root ascii_int example_nmap_root
  = Parsed {[ 22%Z := Some (lit "ssh OpenSSH"); 25%Z := Some (lit "filtered");
              80%Z := Some (lit "(unknown)") ]}
  ∧ ∀ n, is_Some (({[ 22%Z := Some (lit "ssh OpenSSH"); 25%Z := Some (lit "filtered");
                      80%Z := Some (lit "(unknown)") ]} : gmap Z (option pystr)) !! n)
         ↔ ∃ el text, el ∈ nmap_port_elements example_nmap_root
                      ∧ is_Some (xml_find (lit "state") el)
                      ∧ xml_get (lit "portid") el = Some text ∧ ascii_int text = Some n.
Proof.
  assert (parse_nmap_root ascii_int example_nmap_root
          = Parsed {[ 22%Z := Some (lit "ssh OpenSSH"); 25%Z := Some (lit "filtered");
                      80%Z := Some (lit "(unknown)") ]}) as Hparse by (by vm_compute).
  split; [done|]. by apply (parse_nmap_root_entries ascii_int example_nmap_root).
Defined.

(** The later of two elements with the same number is the one kept. *)
Example parse_nmap_root_last_wins :
  parse_nmap_root ascii_int repeated_nmap_root = Parsed {[ 22%Z := Some (lit "closed") ]}.
Proof. by vm_compute. Qed.

(** * Colouring the analysis *)

Lemma py_startswith_elem_of prefix s c :
  py_startswith prefix s = true → c ∈ prefix → c ∈ s.
Proof.
  revert s. induction prefix as [|a prefix IH]; intros s Hpre Hc;
    [by apply elem_of_nil in Hc|].
  destruct s as [|b s]; [done|]. simpl in Hpre.
  apply andb_true_iff in Hpre as [->%N.eqb_eq Hpre].
  apply elem_of_cons in Hc as [->|Hc]; [apply list_elem_of_here|].
  apply list_elem_of_further. by apply IH.
Qed.

(** A word that occurs in a string has all its characters there. *)
Lemma py_substring_elem_of word s c :
  py_substring word s = true → c ∈ word → c ∈ s.
Proof.
  intros Hsub Hc. induction s as [|b s IH]; simpl in Hsub.
  - rewrite orb_false_r in Hsub. by eapply py_startswith_elem_of.
  - apply orb_true_iff in Hsub as [Hpre|Hsub]; [by eapply py_startswith_elem_of|].
    apply list_elem_of_further. by apply IH.
Qed.

Lemma highlight_lines_spec str_lower CYAN YELLOW WHITE BRIGHT RESET_ALL colored lines :
  highlight_lines str_lower CYAN YELLOW WHITE BRIGHT RESET_ALL colored lines
  = colored ++ (highlight_line str_lower CYAN YELLOW WHITE BRIGHT RESET_ALL <$> lines).
Proof.
  revert colored. induction lines as [|line lines IH]; intros colored; simpl.
  - by rewrite app_nil_r.
  - by rewrite IH, <- app_assoc.
Qed.

(** X19. Three of the eight words that should mark a line yellow are
    written in capitals, while the line is lower-cased before it is
    searched: a lower-cased line holds no capital letter, so
    "VULNERABILITIES", "EXPLOITATION STEPS" and "DETECTION" never match,
    and the output is the one that the five lower-case words alone
    give. *)
Theorem capital_words_never_highlight str_lower CYAN YELLOW WHITE BRIGHT RESET_ALL text :
  (∀ s c, c ∈ str_lower s → ¬ (65 ≤ c ≤ 90)%N) →
  highlight_gemini_output str_lower CYAN YELLOW WHITE BRIGHT RESET_ALL text
  = py_join [LF]
      ((λ line,
          if py_startswith (lit "**") (py_strip line)
             || py_startswith (lit "#") (py_strip line)
          then CYAN ++ BRIGHT ++ line ++ RESET_ALL
          else if existsb (λ word, py_substring word (str_lower line))
                    [lit "impact"; lit "recommendation"; lit "cve"; lit "advisories";
                     lit "remediation"]
          then YELLOW ++ line ++ RESET_ALL
          else WHITE ++ line ++ RESET_ALL) <$> py_splitlines text).
Proof.
  intros Hlower. unfold highlight_gemini_output. rewrite highlight_lines_spec. simpl.
  f_equal. apply list_fmap_ext. intros _ line _. unfold highlight_line.
  destruct (_ || _); [done|].
  assert (∀ word c, c ∈ word → (65 ≤ c ≤ 90)%N →
            py_substring word (str_lower line) = false) as Hdead.
  { intros word c Hc Hcap. destruct (py_substring word (str_lower line)) eqn:Hsub; [|done].
    destruct (Hlower line c); [|done]. by eapply py_substring_elem_of. }
  unfold HIGHLIGHT_WORDS. cbn [existsb].
  rewrite (Hdead (lit "VULNERABILITIES") 86%N), (Hdead (lit "EXPLOITATION STEPS") 69%N),
    (Hdead (lit "DETECTION") 68%N);
    [|(by apply (bool_decide_unpack _)) || lia..].
  simpl. by rewrite !orb_false_r.
Qed.

Lemma capital_words_never_highlight_witness :
  highlight_gemini_output ascii_lower (lit "<C>") (lit "<Y>") (lit "<W>") (lit "<B>")
    (lit "<R>") (lit "VULNERABILITIES")
  = lit "<W>VULNERABILITIES<R>".
Proof.
  rewrite (capital_words_never_highlight ascii_lower); [reflexivity|].
  intros s c (c0 & -> & _)%list_elem_of_fmap.
  destruct ((65 <=? c0)%N && (c0 <=? 90)%N) eqn:Hcap.
  - apply andb_true_iff in Hcap as [?%N.leb_le ?%N.leb_le]. lia.
  - apply andb_false_iff in Hcap as [?%N.leb_gt|?%N.leb_gt]; lia.
Defined.

(** * Encoding and decoding *)

Local Open Scope N_scope.

(** ** Bits as arithmetic *)

Lemma N_lor_shiftl_low x y k : y < 2 ^ k → N.lor (N.shiftl x k) y = x * 2 ^ k + y.
Proof.
  intros Hy. rewrite N.shiftl_mul_pow2.
  assert (N.land (x * 2 ^ k) y = 0) as Hdisj.
  { apply N.bits_inj_0. intros i. rewrite N.land_spec.
    destruct (N.lt_ge_cases i k) as [Hlt|Hge].
    - rewrite N.mul_pow2_bits_low by done. done.
    - destruct (N.eq_dec y 0) as [->|Hy0]; [by rewrite N.bits_0, andb_false_r|].
      rewrite (N.bits_above_log2 y i), andb_false_r; [done|].
      apply N.log2_lt_pow2; [lia|]. eapply N.lt_le_trans; [exact Hy|].
      apply N.pow_le_mono_r; lia. }
  rewrite <- N.lxor_lor by done. symmetry. by apply N.add_nocarry_lxor.
Qed.

Lemma N_land_low x k : N.land x (2 ^ k - 1) = x mod 2 ^ k.
Proof. rewrite <- N.land_ones. f_equal. rewrite N.ones_equiv. lia. Qed.

Lemma byte_of_N_to_N n : n < 256 → Byte.to_N (byte_of_N n) = n.
Proof.
  intros Hn. unfold byte_of_N. destruct (Byte.of_N n) as [b|] eqn:Hb.
  - by apply Byte.to_of_N.
  - apply Byte.of_N_None_iff in Hb. lia.
Qed.

(** ** The bytes that the encoder writes *)

Lemma cont_byte_value c k : Byte.to_N (cont_byte c k) = 128 + (c / 2 ^ k) mod 64.
Proof.
  unfold cont_byte. rewrite N.shiftr_div_pow2.
  change 0x3F with (2 ^ 6 - 1). rewrite N_land_low.
  change 0x80 with (N.shiftl 2 6). rewrite N_lor_shiftl_low by (by apply N.mod_lt).
  change (2 ^ 6) with 64. change (N.shiftl 2 6) with 128.
  pose proof (N.mod_lt (c / 2 ^ k) 64). rewrite byte_of_N_to_N; lia.
Qed.

Lemma lead_byte_value (tag : N) c k w :
  c / 2 ^ k < 2 ^ w → tag * 2 ^ w + c / 2 ^ k < 256 →
  Byte.to_N (byte_of_N (N.lor (N.shiftl tag w) (N.shiftr c k))) = tag * 2 ^ w + c / 2 ^ k.
Proof.
  intros Hlow Hbyte. rewrite N.shiftr_div_pow2, N_lor_shiftl_low by done.
  by apply byte_of_N_to_N.
Qed.

(** ** The steps of the decoder *)

Lemma utf8_decode_start b bs :
  utf8_decode_from U_start (b :: bs)
  = (utf8_lead (Byte.to_N b)).1 ++ utf8_decode_from (utf8_lead (Byte.to_N b)).2 bs.
Proof. simpl. by destruct (utf8_lead (Byte.to_N b)). Qed.

Lemma utf8_decode_cont need cp lo hi b bs :
  lo ≤ Byte.to_N b ≤ hi →
  utf8_decode_from (U_cont need cp lo hi) (b :: bs)
  = match need with
    | S (S k) =>
        utf8_decode_from (U_cont (S k) (cp * 64 + Byte.to_N b mod 64) 0x80 0xBF) bs
    | _ => (cp * 64 + Byte.to_N b mod 64) :: utf8_decode_from U_start bs
    end.
Proof.
  intros [Hlo Hhi]. simpl.
  apply N.leb_le in Hlo, Hhi. rewrite Hlo, Hhi. simpl.
  change 0x3F with (2 ^ 6 - 1). rewrite N_land_low.
  rewrite N_lor_shiftl_low by (by apply N.mod_lt). done.
Qed.

Lemma utf8_lead_ascii n : n < 0x80 → utf8_lead n = ([n], U_start).
Proof. intros Hn. unfold utf8_lead. apply N.ltb_lt in Hn. by rewrite Hn. Qed.

Lemma utf8_lead_two n :
  0xC2 ≤ n ≤ 0xDF → utf8_lead n = ([], U_cont 1 (n mod 32) 0x80 0xBF).
Proof.
  intros Hn. unfold utf8_lead.
  change 0x1F with (2 ^ 5 - 1). rewrite N_land_low.
  destruct (N.ltb_spec n 0x80); [lia|].
  destruct (N.leb_spec 0xC2 n); [|lia]. destruct (N.leb_spec n 0xDF); [|lia]. done.
Qed.

Lemma utf8_lead_three n :
  0xE0 ≤ n ≤ 0xEF →
  utf8_lead n = ([], U_cont 2 (n mod 16)
                       (if n =? 0xE0 then 0xA0 else 0x80)
                       (if n =? 0xED then 0x9F else 0xBF)).
Proof.
  intros Hn. unfold utf8_lead.
  change 0x0F with (2 ^ 4 - 1). rewrite N_land_low.
  destruct (N.ltb_spec n 0x80); [lia|].
  destruct (N.leb_spec 0xC2 n); [|lia]. destruct (N.leb_spec n 0xDF); [lia|]. simpl.
  destruct (N.eqb_spec n 0xE0) as [->|?]; [done|].
  destruct (N.eqb_spec n 0xED) as [->|?]; [done|].
  destruct (N.leb_spec 0xE1 n); [|lia]. destruct (N.leb_spec n 0xEF); [|lia]. done.
Qed.

Lemma utf8_lead_four n :
  0xF0 ≤ n ≤ 0xF4 →
  utf8_lead n = ([], U_cont 3 (n mod 8)
                       (if n =? 0xF0 then 0x90 else 0x80)
                       (if n =? 0xF4 then 0x8F else 0xBF)).
Proof.
  intros Hn. unfold utf8_lead.
  change 0x07 with (2 ^ 3 - 1). rewrite N_land_low.
  destruct (N.ltb_spec n 0x80); [lia|].
  destruct (N.leb_spec 0xC2 n); [|lia]. destruct (N.leb_spec n 0xDF); [lia|]. simpl.
  destruct (N.eqb_spec n 0xE0) as [->|?]; [lia|].
  destruct (N.eqb_spec n 0xED) as [->|?]; [lia|].
  destruct (N.leb_spec 0xE1 n); [|lia]. destruct (N.leb_spec n 0xEF); [lia|]. simpl.
  destruct (N.eqb_spec n 0xF0) as [->|?]; [done|].
  destruct (N.eqb_spec n 0xF4) as [->|?]; [done|].
  destruct (N.leb_spec 0xF1 n); [|lia]. destruct (N.leb_spec n 0xF3); [|lia]. done.
Qed.

(** ** One character *)

(** Division and remainder by a constant, for [lia]. *)
#[local] Ltac Zify.zify_post_hook ::= Z.to_euclidean_division_equations.

Lemma utf8_char_round_trip c bs rest :
  utf8_encode_char c = Some bs →
  utf8_decode_from U_start (bs ++ rest) = c :: utf8_decode_from U_start rest.
Proof.
  unfold utf8_encode_char.
  destruct (N.ltb_spec c 0x80) as [H1|H1].
  { intros [= <-]. simpl app. rewrite utf8_decode_start, byte_of_N_to_N by lia.
    by rewrite utf8_lead_ascii. }
  destruct (N.ltb_spec c 0x800) as [H2|H2].
  { intros [= <-]. simpl app. rewrite utf8_decode_start.
    change 0xC0 with (N.shiftl 6 5).
    rewrite (lead_byte_value 6 c 6 5);
      change (2 ^ 6) with 64; change (2 ^ 5) with 32; [|lia..].
    rewrite utf8_lead_two by lia. cbn [fst snd app].
    pose proof (cont_byte_value c 0) as Hb. change (2 ^ 0) with 1 in Hb.
    rewrite N.div_1_r in Hb.
    rewrite utf8_decode_cont by (rewrite Hb; lia). rewrite Hb. f_equal. lia. }
  destruct (N.ltb_spec c 0x10000) as [H3|H3].
  { destruct (is_surrogate c) eqn:Hsur; [done|]. intros [= <-]. simpl app.
    assert (c < 0xD800 ∨ 0xDFFF < c) as Hns.
    { unfold is_surrogate in Hsur.
      apply andb_false_iff in Hsur as [?%N.leb_gt|?%N.leb_gt]; lia. }
    rewrite utf8_decode_start. change 0xE0 with (N.shiftl 14 4).
    rewrite (lead_byte_value 14 c 12 4);
      change (2 ^ 12) with 4096; change (2 ^ 4) with 16; [|lia..].
    rewrite utf8_lead_three by lia. cbn [fst snd app].
    pose proof (cont_byte_value c 6) as Hb1. change (2 ^ 6) with 64 in Hb1.
    pose proof (cont_byte_value c 0) as Hb0. change (2 ^ 0) with 1 in Hb0.
    rewrite N.div_1_r in Hb0.
    rewrite utf8_decode_cont.
    2: { rewrite Hb1.
         destruct (N.eqb_spec (14 * 16 + c / 4096) 0xE0);
           destruct (N.eqb_spec (14 * 16 + c / 4096) 0xED); lia. }
    rewrite utf8_decode_cont by (rewrite Hb0; lia). rewrite Hb1, Hb0. f_equal. lia. }
  destruct (N.ltb_spec c 0x110000) as [H4|H4]; [|done].
  intros [= <-]. simpl app.
  rewrite utf8_decode_start. change 0xF0 with (N.shiftl 30 3).
  rewrite (lead_byte_value 30 c 18 3);
    change (2 ^ 18) with 262144; change (2 ^ 3) with 8; [|lia..].
  rewrite utf8_lead_four by lia. cbn [fst snd app].
  pose proof (cont_byte_value c 12) as Hb2. change (2 ^ 12) with 4096 in Hb2.
  pose proof (cont_byte_value c 6) as Hb1. change (2 ^ 6) with 64 in Hb1.
  pose proof (cont_byte_value c 0) as Hb0. change (2 ^ 0) with 1 in Hb0.
  rewrite N.div_1_r in Hb0.
  rewrite utf8_decode_cont.
  2: { rewrite Hb2.
       destruct (N.eqb_spec (30 * 8 + c / 262144) 0xF0);
         destruct (N.eqb_spec (30 * 8 + c / 262144) 0xF4); lia. }
  rewrite utf8_decode_cont by (rewrite Hb1; lia).
  rewrite utf8_decode_cont by (rewrite Hb0; lia).
  rewrite Hb2, Hb1, Hb0. f_equal. lia.
Qed.

Lemma utf8_encode_char_None c :
  utf8_encode_char c = None ↔ is_surrogate c = true ∨ 0x110000 ≤ c.
Proof.
  unfold utf8_encode_char, is_surrogate.
  destruct (N.ltb_spec c 0x80); [split; [done|]; intros [Hs|?]; [|lia];
    apply andb_true_iff in Hs as [?%N.leb_le _]; lia|].
  destruct (N.ltb_spec c 0x800); [split; [done|]; intros [Hs|?]; [|lia];
    apply andb_true_iff in Hs as [?%N.leb_le _]; lia|].
  destruct (N.ltb_spec c 0x10000).
  - destruct (_ && _); [split; [by left|done]|]. split; [done|]. intros [?|?]; [done|lia].
  - destruct (N.ltb_spec c 0x110000).
    + split; [done|]. intros [Hs|?]; [|lia].
      apply andb_true_iff in Hs as [_ ?%N.leb_le]. lia.
    + split; [by right|done].
Qed.

(** X20. What [str.encode] writes, [bytes.decode] reads back: a string
    is encoded unless it holds a lone surrogate (or a number that is no
    code point), and the bytes of an encoded string decode to that very
    string, with no replacement character added. So the request that the
    prober sends reads, on the wire, as the text it was built from. *)
Theorem utf8_round_trip s :
  (utf8_encode s = None ↔ ∃ c, c ∈ s ∧ (is_surrogate c = true ∨ 0x110000 ≤ c))
  ∧ (∀ bs, utf8_encode s = Some bs → utf8_decode_replace bs = s)
  ∧ (∀ host req, s = http_request host → utf8_encode s = Some req →
       utf8_decode_replace req
       = lit "GET / HTTP/1.0" ++ [CR; LF] ++ lit "Host: " ++ host ++ [CR; LF; CR; LF]).
Proof.
  assert (∀ bs, utf8_encode s = Some bs → utf8_decode_replace bs = s) as Hround.
  { unfold utf8_decode_replace. induction s as [|c s IH]; intros bs.
    - by intros [= <-].
    - rewrite utf8_encode_cons. destruct (utf8_encode_char c) as [b1|] eqn:Hc; [|done].
      destruct (utf8_encode s) as [rest|]; [|done]. intros [= <-].
      rewrite (utf8_char_round_trip c b1 rest Hc). f_equal. by apply IH. }
  split; [|split; [done|]].
  - clear Hround. induction s as [|c s IH].
    + split; [done|]. intros (c & Hc & _). by apply elem_of_nil in Hc.
    + rewrite utf8_encode_cons. destruct (utf8_encode_char c) as [b1|] eqn:Hc.
      * destruct (utf8_encode s) as [rest|].
        -- split; [done|]. intros (c' & [->|Hin]%elem_of_cons & Hbad).
           ++ apply utf8_encode_char_None in Hbad. congruence.
           ++ destruct IH as [_ IH]. discriminate IH. by exists c'.
        -- split; [|done]. intros _. destruct IH as [IH _].
           destruct (IH eq_refl) as (c' & Hin & Hbad). exists c'.
           split; [by apply list_elem_of_further|done].
      * split; [|done]. intros _. exists c. split; [apply list_elem_of_here|].
        by apply utf8_encode_char_None.
  - intros host req -> Henc. by apply Hround.
Qed.

Lemma utf8_round_trip_witness :
  utf8_decode_replace [xc3; xa9; xe2; x82; xac; xf0; x9f; x98; x80] = [0xE9; 0x20AC; 0x1F600].
Proof.
  by apply (utf8_round_trip [0xE9; 0x20AC; 0x1F600]).
Defined.

Local Close Scope N_scope.
